(** * Excel Multi-Merge: ingestion and merge pipeline

    A shallow embedding of the spreadsheet merge tool:
    - [types.ts]: [FileItem], [MergeOptions];
    - [services/excelService.ts]: [readExcelFile], [mergeFiles], [downloadBlob];
    - [services/geminiService.ts]: [getSmartMapping];
    - [App.tsx]: [filteredFiles], [handleFileUpload], [processFiles],
      [handleMergeAllMatched], [removeFile], [clearFiles].

    Row objects live in an explicit store, so that copying a row and
    writing to the copy can be told apart from writing to the original.
    The spreadsheet codec, the client of the remote model, the JSON
    parser, the Unicode string functions, the printing of numbers and
    the random source are interfaces of the host; they are type classes
    here and the results hold for every implementation. *)

From Stdlib Require Floats.PrimFloat.
From stdpp Require Import gmap strings list pretty.

Open Scope string_scope.
Open Scope list_scope.

(* ===================================================================== *)
(** ** JavaScript values used by the program *)
(* ===================================================================== *)

Definition bytes := list Byte.byte.

(** [new Error(message)] *)
Record JsError := Error { message : string }.

(** Inside a [try] block a computation completes normally or throws. *)
Inductive completion (A : Type) :=
  | Normal (a : A)
  | Throw (e : JsError).
Arguments Normal {A} a.
Arguments Throw {A} e.

Definition completion_bind {A B} (c : completion A) (k : A → completion B)
  : completion B :=
  match c with
  | Normal a => k a
  | Throw e => Throw e
  end.

Notation "'try!' x ':=' c 'in' k" := (completion_bind c (λ x, k))
  (at level 10, x name, c at level 100, k at level 200, only parsing).

(** A settled promise: what the caller of an [async] function observes. *)
Inductive promise (A : Type) :=
  | Resolved (a : A)
  | Rejected (e : JsError).
Arguments Resolved {A} a.
Arguments Rejected {A} e.

(** [try { resolve(body) } catch (err) { reject(err) }] *)
Definition settle {A} (c : completion A) : promise A :=
  match c with
  | Normal a => Resolved a
  | Throw e => Rejected e
  end.

(** [a || b] on strings: the empty string is the only falsy string. *)
Definition str_or (a b : string) : string :=
  if decide (a = "") then b else a.

(** [s.startsWith(p)], [s.includes(t)], [s.endsWith(t)] on code-unit
    sequences. *)
Fixpoint startsWith (s p : string) {struct p} : bool :=
  match p with
  | "" => true
  | String c p' =>
      match s with
      | "" => false
      | String d s' => if decide (c = d) then startsWith s' p' else false
      end
  end.

Fixpoint includes (s t : string) : bool :=
  startsWith s t ||
  match s with
  | "" => false
  | String _ s' => includes s' t
  end.

Fixpoint endsWith (s t : string) : bool :=
  if decide (s = t) then true
  else match s with
       | "" => false
       | String _ s' => endsWith s' t
       end.

(** [arr.join(sep)] *)
Definition join (sep : string) (arr : list string) : string :=
  String.concat sep arr.

(** [arr[i]] for a number [i] that holds an integer: [undefined] (here
    [None]) below zero and past the end. *)
Definition array_index {A} (arr : list A) (i : Z) : option A :=
  if decide (i < 0)%Z then None else arr !! Z.to_nat i.

(** [String.prototype.toLowerCase] and [String.prototype.trim] follow the
    Unicode tables of the engine. *)
Class JsString := {
  toLowerCase : string → string;
  trim : string → string;
}.

(* ===================================================================== *)
(** ** types.ts *)
(* ===================================================================== *)

Inductive Status := pending | processing | done | error.

Global Instance Status_eq_dec : EqDecision Status.
Proof. solve_decision. Defined.

(** A cell value as [sheet_to_json] yields it. *)
Inductive cell :=
  | CStr (s : string)
  | CNum (x : PrimFloat.float)
  | CBool (b : bool).

(** A row is a JavaScript object used as a map from column name to cell:
    the map holds its own data properties. Every row inherits from
    [Object.prototype]; the enumeration order of the keys is not part of
    the model. *)
Abbreviation row := (gmap string cell).

(** The store of row objects; a reference to a row is its index. *)
Abbreviation loc := nat (only parsing).
Abbreviation heap := (list row) (only parsing).

(** What [FileReader.readAsArrayBuffer] delivers for a file: [onload]
    with [e.target.result] (possibly missing), or [onerror]. *)
Inductive ReadOutcome :=
  | Loaded (result : option bytes)
  | ReadFailed.

(** The browser's [File]. *)
Record File := {
  file_name : string;
  webkitRelativePath : string;
  file_size : N;
  file_read : ReadOutcome;
}.

Record FileItem := {
  id : string;
  file : File;
  name : string;
  path : string;
  size : N;
  status : Status;
  data : option (list loc);
  headers : option (list string);
  errorMessage : option string;
}.

Record MergeOptions := {
  addSourceColumn : bool;
  sourceColumnName : string;
  useSmartMapping : bool;
  sheetIndex : Z;
  outputFileName : string;
  filterKeyword : string;
}.

(** [{ ...f, status: 'processing' }] *)
Definition with_processing (f : FileItem) : FileItem :=
  {| id := id f; file := file f; name := name f; path := path f;
     size := size f; status := processing; data := data f;
     headers := headers f; errorMessage := errorMessage f |}.

(** [{ ...f, status: 'done', data, headers }] *)
Definition with_done (f : FileItem) (d : list loc) (hs : list string)
  : FileItem :=
  {| id := id f; file := file f; name := name f; path := path f;
     size := size f; status := done; data := Some d;
     headers := Some hs; errorMessage := errorMessage f |}.

(** [{ ...f, status: 'error', errorMessage: err.message }] *)
Definition with_error (f : FileItem) (msg : string) : FileItem :=
  {| id := id f; file := file f; name := name f; path := path f;
     size := size f; status := error; data := data f;
     headers := headers f; errorMessage := Some msg |}.

(* ===================================================================== *)
(** ** The row store *)
(* ===================================================================== *)

(** Computations that read and write the row store. *)
Definition St (A : Type) : Type := heap → heap * A.

Definition St_ret {A} (a : A) : St A := λ h, (h, a).

Definition St_bind {A B} (m : St A) (k : A → St B) : St B :=
  λ h, let (h1, a) := m h in k a h1.

Notation "'do!' x ':=' m 'in' k" := (St_bind m (λ x, k))
  (at level 10, x name, m at level 100, k at level 200, only parsing).

(** The properties of the object at [l]; spreading [undefined] yields the
    empty object. *)
Definition deref (h : heap) (l : loc) : row := default ∅ (h !! l).

(** [{ ...row }]: a fresh object with the own properties of [row]. *)
Definition spread (l : loc) : St loc :=
  λ h, (h ++ [deref h l], length h).

(** What [obj[k] = v] makes of a row [obj], for a [v] that is a string,
    a number or a boolean. An own property of that name is overwritten
    and a missing one is created, but for the name [__proto__]: a row
    without an own property of that name finds the accessor that it
    inherits from [Object.prototype], whose setter ignores a value that
    is not an object, so the row stays as it is. *)
Definition set_property (k : string) (v : cell) (obj : row) : row :=
  if decide (k = "__proto__" ∧ obj !! k = None) then obj
  else <[k := v]> obj.

(** [obj[k] = v] *)
Definition assign (l : loc) (k : string) (v : cell) : St unit :=
  λ h, (alter (set_property k v) l h, tt).

(** [arr.map(f)] for a callback with effects on the store. *)
Fixpoint array_map {A B} (f : A → St B) (arr : list A) : St (list B) :=
  match arr with
  | [] => St_ret []
  | x :: rest =>
      do! y := f x in
      do! ys := array_map f rest in
      St_ret (y :: ys)
  end.

(** Reading the rows behind an array of references. *)
Definition snapshot (ls : list loc) : St (list row) :=
  λ h, (h, deref h <$> ls).

(* ===================================================================== *)
(** ** services/excelService.ts *)
(* ===================================================================== *)

Record WorkBook (WS : Type) := {
  SheetNames : list string;
  Sheets : gmap string WS;
}.
Arguments SheetNames {WS} _.
Arguments Sheets {WS} _.

(** The SheetJS codec, and the engine's property enumeration and number
    printing. Reading may throw; building and writing the one-sheet
    workbook of a merge is taken to succeed. *)
Class SheetJS := {
  WorkSheet : Type;
  (** [XLSX.read(data, { type: 'array' })] *)
  XLSX_read : bytes → completion (WorkBook WorkSheet);
  (** [XLSX.utils.sheet_to_json(worksheet, { defval: "" })] *)
  sheet_to_json : option WorkSheet → completion (list row);
  (** [Object.keys(obj)] *)
  Object_keys : row → list string;
  (** The text that a template literal gives for a number holding the
      integer [n]: its decimal digits for a small [n], a rounded or an
      exponent form for a large one. *)
  Number_toString : Z → string;
  (** [XLSX.utils.json_to_sheet(rows)] *)
  json_to_sheet : list row → WorkSheet;
  (** [XLSX.write(workbook, { bookType: 'xlsx', type: 'array' })] *)
  XLSX_write : WorkBook WorkSheet → bytes;
}.

(** [XLSX.utils.book_new()] *)
Definition book_new {WS} : WorkBook WS :=
  {| SheetNames := []; Sheets := ∅ |}.

(** [XLSX.utils.book_append_sheet(workbook, worksheet, name)] *)
Definition book_append_sheet {WS} (wb : WorkBook WS) (ws : WS) (n : string)
  : WorkBook WS :=
  {| SheetNames := SheetNames wb ++ [n]; Sheets := <[n := ws]> (Sheets wb) |}.

(** The resolved value of [readExcelFile]. *)
Record Decoded := {
  decoded_data : list row;
  decoded_headers : list string;
}.

(** The error of [readExcelFile] for a sheet that is not there. *)
Definition sheet_not_found `{SheetJS} (sheetIndex : Z) (names : list string)
  : JsError :=
  Error ("Sheet at index " +:+ Number_toString sheetIndex +:+
         " not found. Available sheets: " +:+ join ", " names).

Section excelService.
Context `{SheetJS}.

(** The body of [reader.onload], inside its [try]. *)
Definition onload (result : option bytes) (sheetIndex : Z)
  : completion Decoded :=
  match result with
  | None => Throw (Error "No data read from file.")
  | Some data =>
      try! workbook := XLSX_read data in
      match array_index (SheetNames workbook) sheetIndex with
      | None => Throw (sheet_not_found sheetIndex (SheetNames workbook))
      | Some sheetName =>
          if decide (sheetName = "")
          then Throw (sheet_not_found sheetIndex (SheetNames workbook))
          else
            let worksheet := Sheets workbook !! sheetName in
            try! jsonData := sheet_to_json worksheet in
            let headers :=
              match jsonData with
              | first :: _ => Object_keys first
              | [] => []
              end in
            Normal {| decoded_data := jsonData; decoded_headers := headers |}
      end
  end.

Definition readExcelFile (fileItem : FileItem) (sheetIndex : Z)
  : promise Decoded :=
  match file_read (file fileItem) with
  | Loaded result => settle (onload result sheetIndex)
  | ReadFailed => Rejected (Error "File reading failed.")
  end.

(** The callback of [fileItem.data.map] in [mergeFiles]. *)
Definition processRow (options : MergeOptions) (fileItem : FileItem)
    (r : loc) : St loc :=
  do! newRow := spread r in
  do! _ := (if addSourceColumn options
            then assign newRow (sourceColumnName options)
                        (CStr (path fileItem))
            else St_ret tt) in
  St_ret newRow.

(** [fileItem.status !== 'done' || !fileItem.data] *)
Definition skipped (fileItem : FileItem) : bool :=
  negb (bool_decide (status fileItem = done)) ||
  match data fileItem with
  | None => true
  | Some _ => false
  end.

(** The [for (const fileItem of files)] loop of [mergeFiles], started
    with the rows gathered so far. *)
Fixpoint collectRows (options : MergeOptions) (files : list FileItem)
    (allData : list loc) : St (list loc) :=
  match files with
  | [] => St_ret allData
  | fileItem :: rest =>
      if skipped fileItem then collectRows options rest allData
      else
        do! processedData :=
          array_map (processRow options fileItem)
                    (default [] (data fileItem)) in
        collectRows options rest (allData ++ processedData)
  end.

Definition no_data : JsError := Error "No data to merge.".

Definition mergeFiles (files : list FileItem) (options : MergeOptions)
  : St (promise bytes) :=
  do! allData := collectRows options files [] in
  if decide (length allData = 0) then St_ret (Rejected no_data)
  else
    do! rows := snapshot allData in
    let worksheet := json_to_sheet rows in
    let workbook := book_append_sheet book_new worksheet "MergedData" in
    St_ret (Resolved (XLSX_write workbook)).

(** The [download] attribute that [downloadBlob] sets on the link. *)
Definition downloadBlob_name (fileName : string) : string :=
  if endsWith fileName ".xlsx" then fileName else fileName +:+ ".xlsx".

End excelService.

(* ===================================================================== *)
(** ** services/geminiService.ts *)
(* ===================================================================== *)

(** What [JSON.parse] returns. The fields of an object are listed with
    the field that a property read finds first. *)
#[warnings="-register-all"]
Inductive Json :=
  | JNull
  | JBool (b : bool)
  | JNum (x : PrimFloat.float)
  | JStr (s : string)
  | JArr (items : list Json)
  | JObj (fields : list (string * Json)).

(** The remote model and the engine's JSON parser. *)
Class GenAI := {
  (** The client object [ai]. *)
  Client : Type;
  (** [new GoogleGenAI({ apiKey: process.env.API_KEY })]: the constructor
      returns a client or throws. *)
  new_GoogleGenAI : completion Client;
  (** [await ai.models.generateContent({...})], then [response.text]:
      rejected when the call fails, else resolved with the reply's text,
      which may be missing. *)
  generateContent : Client → string → promise (option string);
  (** [JSON.parse(text)]; throws a [SyntaxError] on malformed text. *)
  JSON_parse : string → completion Json;
}.

Definition nl : string := String (Ascii.ascii_of_nat 10) "".

(** The template literal of [getSmartMapping]. *)
Definition prompt_of (fileHeaders : list (list string)) : string :=
  join nl
    [ "";
      "    I have multiple Excel files with varying headers. ";
      "    Analyze these header sets and suggest a single unified header list (schema) that best represents the combination of all data.";
      "    Try to group similar concepts (e.g., 'User ID' and 'Member ID' should probably be mapped to one column).";
      "    ";
      "    Input headers:";
      "    " +:+
        join nl (imap (λ i h, "File " +:+ pretty (i + 1) +:+ ": " +:+
                               join ", " h) fileHeaders);
      "    ";
      "    Return a unified list of unique column names.";
      "  " ].

(** [result.unifiedHeaders]: a [TypeError] on [null], [undefined] (here
    [None]) when the value has no such property. *)
Definition unifiedHeaders_of (result : Json) : completion (option Json) :=
  match result with
  | JNull => Throw (Error "Cannot read properties of null")
  | JObj fields => Normal ((λ found, found.2.2) <$>
                list_find (λ kv, kv.1 = "unifiedHeaders") fields)
  | _ => Normal None
  end.

(** Truthiness of a parsed value. *)
Definition truthy (v : Json) : bool :=
  match v with
  | JNull => false
  | JBool b => b
  | JNum x => negb (PrimFloat.eqb x PrimFloat.zero || PrimFloat.is_nan x)
  | JStr s => negb (bool_decide (s = ""))
  | JArr _ | JObj _ => true
  end.

(** [allHeaders.add(col)] on a [Set], kept in insertion order. *)
Definition Set_add (allHeaders : list string) (col : string) : list string :=
  if decide (col ∈ allHeaders) then allHeaders else allHeaders ++ [col].

(** The [catch] branch: the union of all headers. *)
Definition union_of_headers (fileHeaders : list (list string)) : list string :=
  foldl (λ allHeaders h, foldl Set_add allHeaders h) [] fileHeaders.

Section geminiService.
Context `{GenAI}.

(** The [try] block of [getSmartMapping]. *)
Definition askModel (ai : Client) (fileHeaders : list (list string))
  : completion Json :=
  match generateContent ai (prompt_of fileHeaders) with
  | Rejected e => Throw e
  | Resolved text =>
      let resultText :=
        match text with
        | Some t => str_or t "{}"
        | None => "{}"
        end in
      try! result := JSON_parse resultText in
      try! unified := unifiedHeaders_of result in
      match unified with
      | Some v => Normal (if truthy v then v else JArr [])
      | None => Normal (JArr [])
      end
  end.

(** The client is made before the [try] block: what its constructor
    throws is not caught and rejects the promise of the [async]
    function. *)
Definition getSmartMapping (fileHeaders : list (list string))
  : promise Json :=
  if decide (length fileHeaders < 1) then Resolved (JArr [])
  else
    match new_GoogleGenAI with
    | Throw e => Rejected e
    | Normal ai =>
        match askModel ai fileHeaders with
        | Normal v => Resolved v
        | Throw _ => Resolved (JArr (JStr <$> union_of_headers fileHeaders))
        end
    end.

End geminiService.

(* ===================================================================== *)
(** ** App.tsx *)
(* ===================================================================== *)

(** [Math.random().toString(36).substring(7)] at the [k]-th call of
    [Math.random] in the session. *)
Class MathRandom := {
  random_id : nat → string;
}.

(** A running [processFiles(items)]: the items not yet finished, the
    first of which is being read, and the [options.sheetIndex] its
    closure holds. *)
Record Task := {
  queue : list FileItem;
  task_sheetIndex : Z;
}.

(** The component's state: [files], [options], the row store, the number
    of calls of [Math.random] so far, the running [processFiles] loops,
    and every value of [files] that a render has shown. *)
Record App := {
  files : list FileItem;
  options : MergeOptions;
  store : heap;
  draws : nat;
  tasks : list Task;
  observed : list (list FileItem);
}.

(** [setFiles(prev => upd(prev))] *)
Definition setFiles (upd : list FileItem → list FileItem) (s : App) : App :=
  {| files := upd (files s); options := options s; store := store s;
     draws := draws s; tasks := tasks s;
     observed := observed s ++ [upd (files s)] |}.

Definition setOptions (o : MergeOptions) (s : App) : App :=
  {| files := files s; options := o; store := store s;
     draws := draws s; tasks := tasks s; observed := observed s |}.

Definition set_store (h : heap) (s : App) : App :=
  {| files := files s; options := options s; store := h;
     draws := draws s; tasks := tasks s; observed := observed s |}.

Definition set_draws (n : nat) (s : App) : App :=
  {| files := files s; options := options s; store := store s;
     draws := n; tasks := tasks s; observed := observed s |}.

Definition set_tasks (ts : list Task) (s : App) : App :=
  {| files := files s; options := options s; store := store s;
     draws := draws s; tasks := ts; observed := observed s |}.

(** [f.name.endsWith('.xlsx') || f.name.endsWith('.xls') ||
    f.name.endsWith('.csv')] *)
Definition accepted (f : File) : bool :=
  endsWith (file_name f) ".xlsx" || endsWith (file_name f) ".xls" ||
  endsWith (file_name f) ".csv".

(** The object literal of [handleFileUpload]. *)
Definition new_item (i : string) (f : File) : FileItem :=
  {| id := i; file := f; name := file_name f;
     path := str_or (webkitRelativePath f) (file_name f);
     size := file_size f; status := pending;
     data := None; headers := None; errorMessage := None |}.

(** The updaters passed to [setFiles]. *)
Definition mark_processing (i : string) (prev : list FileItem)
  : list FileItem :=
  (λ f, if decide (id f = i) then with_processing f else f) <$> prev.

Definition mark_done (i : string) (d : list loc) (hs : list string)
    (prev : list FileItem) : list FileItem :=
  (λ f, if decide (id f = i) then with_done f d hs else f) <$> prev.

Definition mark_error (i : string) (msg : string) (prev : list FileItem)
  : list FileItem :=
  (λ f, if decide (id f = i) then with_error f msg else f) <$> prev.

(** What the user interface does in the end of a merge request. *)
Inductive UiEffect :=
  | Alert (msg : string)
  | Download (fileName : string) (content : bytes).

Inductive Event :=
  | FilesSelected (selected : list File)
  | ReadSettled (t : nat)
  | RemoveFile (i : string)
  | ClearFiles
  | OptionsChanged (o : MergeOptions).

Section App.
Context `{JsString} `{SheetJS} `{MathRandom}.

Definition filteredFiles (files : list FileItem) (options : MergeOptions)
  : list FileItem :=
  if decide (trim (filterKeyword options) = "") then files
  else
    let kw := toLowerCase (filterKeyword options) in
    filter (λ f, includes (toLowerCase (name f)) kw) files.

(** [newItems] of [handleFileUpload], when [d] calls of [Math.random]
    have been made before. *)
Definition newItems (selected : list File) (d : nat) : list FileItem :=
  imap (λ k f, new_item (random_id (d + k)) f) (filter accepted selected).

(** [setFiles(prev => [...prev, ...newItems])] *)
Definition register (items : list FileItem) (s : App) : App :=
  set_draws (draws s + length items) (setFiles (λ prev, prev ++ items) s).

(** The head of an iteration of the loop of [processFiles]: the entry
    is marked and its read is started. *)
Definition begin_next (items : list FileItem) (s : App) : App :=
  match items with
  | [] => s
  | item :: _ => setFiles (mark_processing (id item)) s
  end.

(** [processFiles(items)] up to its first [await]. *)
Definition processFiles (items : list FileItem) (s : App) : App :=
  let s1 := begin_next items s in
  set_tasks (tasks s1 ++ [{| queue := items;
                             task_sheetIndex := sheetIndex (options s) |}]) s1.

Definition handleFileUpload (selected : list File) (s : App) : App :=
  let items := newItems selected (draws s) in
  processFiles items (register items s).

(** The rest of an iteration, once [await readExcelFile(...)] has
    settled: the decoded rows become objects of the store. *)
Definition finish (item : FileItem) (r : promise Decoded) (s : App) : App :=
  match r with
  | Resolved dec =>
      let d := seq (length (store s)) (length (decoded_data dec)) in
      setFiles (mark_done (id item) d (decoded_headers dec))
               (set_store (store s ++ decoded_data dec) s)
  | Rejected err => setFiles (mark_error (id item) (message err)) s
  end.

(** Task [t] resumes after its [await] and runs to the next one. *)
Definition resume (t : nat) (s : App) : App :=
  match tasks s !! t with
  | Some task =>
      match queue task with
      | [] => s
      | item :: rest =>
          let s1 := finish item (readExcelFile item (task_sheetIndex task)) s in
          let s2 := begin_next rest s1 in
          set_tasks (<[t := {| queue := rest;
                               task_sheetIndex := task_sheetIndex task |}]>
                       (tasks s2)) s2
      end
  | None => s
  end.

Definition removeFile (i : string) (s : App) : App :=
  setFiles (filter (λ f, id f ≠ i)) s.

Definition clearFiles (s : App) : App :=
  setFiles (λ _, []) s.

Definition handle (e : Event) (s : App) : App :=
  match e with
  | FilesSelected selected => handleFileUpload selected s
  | ReadSettled t => resume t s
  | RemoveFile i => removeFile i s
  | ClearFiles => clearFiles s
  | OptionsChanged o => setOptions o s
  end.

Definition run (es : list Event) (s : App) : App :=
  foldl (λ s e, handle e s) s es.

(** The state at the start of a session; [today] is the date part of
    [new Date().toISOString()]. *)
Definition initial (today : string) : App :=
  {| files := [];
     options := {| addSourceColumn := true;
                   sourceColumnName := "来源路径";
                   useSmartMapping := true;
                   sheetIndex := 0;
                   outputFileName := "合并结果_" +:+ today;
                   filterKeyword := "" |};
     store := []; draws := 0; tasks := []; observed := [] |}.

Definition handleMergeAllMatched (s : App) : heap * UiEffect :=
  let readyFiles :=
    filter (λ f, status f = done) (filteredFiles (files s) (options s)) in
  if decide (length readyFiles = 0)
  then (store s, Alert "没有可合并的文件。请确保文件解析成功。")
  else
    let (h, r) := mergeFiles readyFiles (options s) (store s) in
    match r with
    | Resolved mergedBytes =>
        let finalName := str_or (outputFileName (options s)) "merged_result" in
        (h, Download (downloadBlob_name finalName) mergedBytes)
    | Rejected err => (h, Alert ("合并失败: " +:+ message err))
    end.

End App.

(** [groups[file.name].push(file)], after [groups[file.name] = []] when
    the name has no group yet. The names of the files of a session end
    in an accepted extension, so none is a property that an empty object
    inherits. *)
Definition group_push (groups : gmap string (list FileItem))
    (file : FileItem) : gmap string (list FileItem) :=
  let groups1 :=
    match groups !! name file with
    | None => <[name file := []]> groups
    | Some _ => groups
    end in
  alter (λ g, g ++ [file]) (name file) groups1.

(** [groupedFiles]: the filtered entries, grouped by name. *)
Definition groupedFiles `{JsString} (files : list FileItem)
    (options : MergeOptions) : gmap string (list FileItem) :=
  foldl group_push ∅ (filteredFiles files options).

(* ===================================================================== *)
(** ** Hosts for closed examples *)
(* ===================================================================== *)

(** The string functions on ASCII text, where they agree with the
    engine's: case mapping of the letters A to Z, and trimming of blanks. *)
Definition lower_ascii (c : Ascii.ascii) : Ascii.ascii :=
  let n := Ascii.nat_of_ascii c in
  if ((65 <=? n) && (n <=? 90))%nat then Ascii.ascii_of_nat (n + 32) else c.

Fixpoint lower_string (s : string) : string :=
  match s with
  | "" => ""
  | String c s' => String (lower_ascii c) (lower_string s')
  end.

Fixpoint trim_start (s : string) : string :=
  match s with
  | "" => ""
  | String c s' => if Ascii.is_space c then trim_start s' else s
  end.

Definition trim_string (s : string) : string :=
  String.rev (trim_start (String.rev (trim_start s))).

Definition AsciiStrings : JsString :=
  {| toLowerCase := lower_string; trim := trim_string |}.

(** A codec for which every buffer is a workbook with the one sheet
    [Sheet1] and no data rows; a worksheet is its list of rows. Numbers
    print as their decimal digits, as the engine prints the small ones. *)
Definition BlankCodec : SheetJS :=
  {| WorkSheet := list row;
     XLSX_read := λ _, Normal {| SheetNames := ["Sheet1"];
                                 Sheets := {["Sheet1" := []]} |};
     sheet_to_json := λ ws, Normal (default [] ws);
     Object_keys := λ r, (map_to_list r).*1;
     Number_toString := pretty;
     json_to_sheet := λ rows, rows;
     XLSX_write := λ _, [] |}.

(** Identifiers that count the calls: they never repeat. *)
Definition CountingIds : MathRandom :=
  {| random_id := λ k, pretty k |}.

(** Identifiers that repeat: [Math.random] returns numbers such as 0.5
    and 0.25, whose text in base 36, [0.i] and [0.9], has fewer than
    eight characters, so that [substring(7)] of it is empty. *)
Definition ConstantIds : MathRandom :=
  {| random_id := λ _, "" |}.

(** A remote model that cannot be reached. *)
Definition Offline : GenAI :=
  {| Client := unit;
     new_GoogleGenAI := Normal tt;
     generateContent := λ _ _, Rejected (Error "fetch failed");
     JSON_parse := λ _, Throw (Error "SyntaxError") |}.

(** A remote model that replies with the given text, or with no text;
    [JSON.parse] is given on the empty object, the only text it is
    applied to in the examples. *)
Definition Replying (text : option string) : GenAI :=
  {| Client := unit;
     new_GoogleGenAI := Normal tt;
     generateContent := λ _ _, Resolved text;
     JSON_parse := λ s, if decide (s = "{}") then Normal (JObj [])
                        else Throw (Error "SyntaxError") |}.

Definition xlsx_file (n : string) : File :=
  {| file_name := n; webkitRelativePath := ""; file_size := 0;
     file_read := Loaded (Some []) |}.

(** A decoded entry whose rows are the given objects of the store. *)
Definition done_item (i n p : string) (rows : list loc) : FileItem :=
  {| id := i; file := xlsx_file n; name := n; path := p; size := 0;
     status := done; data := Some rows; headers := Some [];
     errorMessage := None |}.

Definition default_options : MergeOptions :=
  {| addSourceColumn := true; sourceColumnName := "src";
     useSmartMapping := true; sheetIndex := 0;
     outputFileName := "merged"; filterKeyword := "" |}.

(** A store of eight rows [{n: 0}], ..., [{n: 7}], the first of which
    has a column [src] already, and two decoded entries that hold the
    first three and the last five. *)
Definition numbered_row (n : nat) : row := {["n" := CStr (pretty n)]}.

Definition eight_rows : heap :=
  <["src" := CStr "old"]> (numbered_row 0) :: (numbered_row <$> seq 1 7).

Definition two_entries : list FileItem :=
  [done_item "0" "a.xlsx" "folder/a.xlsx" [0; 1; 2];
   done_item "1" "b.xlsx" "folder/b.xlsx" [3; 4; 5; 6; 7]].

(** A session with one decoded entry of one row. *)
Definition one_row_app (o : MergeOptions) : App :=
  {| files := [done_item "0" "a.xlsx" "a.xlsx" [0]]; options := o;
     store := [numbered_row 0]; draws := 1; tasks := []; observed := [] |}.


Definition unnamed_options : MergeOptions :=
  {| addSourceColumn := false; sourceColumnName := "src";
     useSmartMapping := true; sheetIndex := 0;
     outputFileName := ""; filterKeyword := "" |}.

(** A remote model that replies with the JSON text of an object whose
    [unifiedHeaders] is the one header [Name]; [JSON.parse] is given on
    that text. *)
Definition quote : string := String (Ascii.ascii_of_nat 34) "".

Definition one_header_text : string :=
  "{" +:+ quote +:+ "unifiedHeaders" +:+ quote +:+ ":[" +:+
  quote +:+ "Name" +:+ quote +:+ "]}".

Definition Answering : GenAI :=
  {| Client := unit;
     new_GoogleGenAI := Normal tt;
     generateContent := λ _ _, Resolved (Some one_header_text);
     JSON_parse := λ s,
       if decide (s = one_header_text)
       then Normal (JObj [("unifiedHeaders", JArr [JStr "Name"])])
       else Throw (Error "SyntaxError") |}.

(** A session without a key: the constructor of the client throws. *)
Definition Keyless : GenAI :=
  {| Client := unit;
     new_GoogleGenAI := Throw (Error "An API Key must be set");
     generateContent := λ _ _, Resolved None;
     JSON_parse := λ _, Throw (Error "SyntaxError") |}.

(** A file whose read fails. *)
Definition unreadable_file (n : string) : File :=
  {| file_name := n; webkitRelativePath := ""; file_size := 0;
     file_read := ReadFailed |}.

(* ===================================================================== *)
(** ** Vocabulary of the statements *)
(* ===================================================================== *)

(** A name with one of the three accepted extensions. *)
Definition accepted_suffix (n : string) : Prop :=
  ∃ pre, n = pre +:+ ".xlsx" ∨ n = pre +:+ ".xls" ∨ n = pre +:+ ".csv".

(** The download name as the specification words it: the configured
    output name, with [.xlsx] appended when it does not end in it. *)
Definition spec_download_name (options : MergeOptions) : string :=
  if endsWith (outputFileName options) ".xlsx"
  then outputFileName options
  else outputFileName options +:+ ".xlsx".

(** The entries that take part in a merge, and their rows. *)
Definition participants (files : list FileItem) : list FileItem :=
  filter (λ f, status f = done ∧ is_Some (data f)) files.

Definition rows_of (f : FileItem) : list loc := default [] (data f).

(** The row written for a row [r] of entry [f]. *)
Definition emitted_row (options : MergeOptions) (f : FileItem) (r : row)
  : row :=
  if addSourceColumn options
  then set_property (sourceColumnName options) (CStr (path f)) r
  else r.

(** The rows a merge writes, in order, given the store it starts from. *)
Definition emitted_rows (options : MergeOptions) (h : heap)
    (files : list FileItem) : list row :=
  participants files ≫= λ f, (λ l, emitted_row options f (deref h l)) <$> rows_of f.

(** Every row reference of the entries points into the store. *)
Definition refs_in_store (h : heap) (files : list FileItem) : Prop :=
  Forall (λ f, Forall (λ l, l < length h) (rows_of f)) files.


(** The bytes of a workbook with the single sheet [MergedData] that holds
    the given rows. *)
Definition merged_workbook `{SheetJS} (rows : list row) : bytes :=
  XLSX_write (book_append_sheet book_new (json_to_sheet rows) "MergedData").

(** What one write of the registry does to one entry: nothing, or one
    move along [pending], [processing], then [done] or [error]. *)
Inductive entry_step : FileItem → FileItem → Prop :=
  | entry_same f : entry_step f f
  | entry_begin f :
      status f = pending → entry_step f (with_processing f)
  | entry_done f d hs :
      status f = processing → entry_step f (with_done f d hs)
  | entry_error f msg :
      status f = processing → entry_step f (with_error f msg).

(** What one write does to the registry: new pending entries at the
    end, or a step of the entries in place, or the removal of entries. *)
Inductive registry_step : list FileItem → list FileItem → Prop :=
  | registry_append prev items :
      Forall (λ it, status it = pending) items →
      registry_step prev (prev ++ items)
  | registry_update prev next :
      Forall2 entry_step prev next → registry_step prev next
  | registry_remove prev next :
      next `sublist_of` prev → registry_step prev next.

(** Each value of a history follows from the one before, from [x] on. *)
Fixpoint chain {A} (R : A → A → Prop) (x : A) (l : list A) : Prop :=
  match l with
  | [] => True
  | y :: l' => R x y ∧ chain R y l'
  end.

(** The updater [prev.map(f => f.id === i ? g(f) : f)]. *)
Definition update_where (i : string) (g : FileItem → FileItem)
    (prev : list FileItem) : list FileItem :=
  (λ f, if decide (id f = i) then g f else f) <$> prev.

Global Arguments update_where : simpl never.
Global Arguments mark_processing : simpl never.
Global Arguments mark_done : simpl never.
Global Arguments mark_error : simpl never.

(** Every entry with identifier [i] has status [st]. *)
Definition marks (files : list FileItem) (i : string) (st : Status) : Prop :=
  ∀ f, f ∈ files → id f = i → status f = st.

(** The entries of a running loop: the one being read is [processing],
    the ones that wait are [pending]. *)
Definition task_ok (files : list FileItem) (t : Task) : Prop :=
  match queue t with
  | [] => True
  | item :: rest =>
      marks files (id item) processing ∧
      Forall (λ r, marks files (id r) pending) rest
  end.

(** The items that running loops still hold. *)
Definition queued (ts : list Task) : list FileItem := ts ≫= queue.

(** An identifier made by one of the first [n] calls of [Math.random]. *)
Definition drawn `{MathRandom} (n : nat) (i : string) : Prop :=
  ∃ k, k < n ∧ i = random_id k.

(** The value of [files] that the last render has shown. *)
Definition shown (s : App) : list FileItem := default [] (last (observed s)).

(** What holds of the registry and its history in every state of a
    session: each write was a step of the registry, the last value shown
    is the current one, and every identifier was made by [Math.random]. *)
Record history_ok `{MathRandom} (s : App) : Prop := {
  ok_chain : chain registry_step [] (observed s);
  ok_shown : shown s = files s;
  ok_files_drawn : Forall (λ f, drawn (draws s) (id f)) (files s);
}.

(** What holds of the running loops when identifiers never repeat. *)
Record tasks_ok `{MathRandom} (files : list FileItem) (n : nat)
    (ts : list Task) : Prop := {
  ok_queue_drawn : Forall (λ f, drawn n (id f)) (queued ts);
  ok_queue_nodup : NoDup (id <$> queued ts);
  ok_marked : Forall (task_ok files) ts;
}.

Definition lifecycle_inv `{MathRandom} (s : App) : Prop :=
  history_ok s ∧ tasks_ok (files s) (draws s) (tasks s).

(** Every entry, now and in every value of [files] shown so far, has a
    name with an accepted extension. *)
Definition names_accepted (s : App) : Prop :=
  Forall (λ it, accepted_suffix (name it)) (files s) ∧
  Forall (Forall (λ it, accepted_suffix (name it))) (observed s).

(** The entry that one iteration of [processFiles] leaves for [item],
    and the store after it. *)
Definition outcome_of `{SheetJS} (i : Z) (h : heap) (item : FileItem)
  : FileItem * heap :=
  match readExcelFile item i with
  | Resolved dec =>
      (with_done item (seq (length h) (length (decoded_data dec)))
                 (decoded_headers dec),
       h ++ decoded_data dec)
  | Rejected err => (with_error item (message err), h)
  end.

(** The entries that a whole run of [processFiles] leaves for its items,
    one after the other, and the store at the end. *)
Fixpoint outcomes `{SheetJS} (i : Z) (h : heap) (items : list FileItem)
  : list FileItem * heap :=
  match items with
  | [] => ([], h)
  | item :: rest =>
      let (f, h1) := outcome_of i h item in
      let (fs, h2) := outcomes i h1 rest in
      (f :: fs, h2)
  end.

(** The registry while a loop holds [items]: the first is being read. *)
Definition in_progress (items : list FileItem) : list FileItem :=
  match items with
  | [] => []
  | item :: rest => with_processing item :: rest
  end.

(** What the fields of an entry say when they agree with its status. *)
Definition fields_fit_status (f : FileItem) : Prop :=
  match status f with
  | pending => data f = None ∧ headers f = None ∧ errorMessage f = None
  | processing => True
  | done => is_Some (data f) ∧ is_Some (headers f)
  | error => is_Some (errorMessage f)
  end.

(** The fields of an entry that come from its file. *)
Definition from_file (f : FileItem) : Prop :=
  name f = file_name (file f) ∧
  path f = (if decide (webkitRelativePath (file f) = "")
            then file_name (file f) else webkitRelativePath (file f)) ∧
  size f = file_size (file f).

(** An entry whose processing is over. *)
Definition terminal (f : FileItem) : Prop :=
  status f = done ∨ status f = error.

(** Every entry that is not over is held by a running loop. *)
Definition unfinished_held (s : App) : Prop :=
  ∀ f, f ∈ files s → ¬ terminal f → id f ∈ id <$> queued (tasks s).

(** An event that settles a read. *)
Definition is_settle (e : Event) : Prop :=
  match e with
  | ReadSettled _ => True
  | _ => False
  end.

(** An event that is not a selection of files. *)
Definition no_upload (e : Event) : Prop :=
  match e with
  | FilesSelected _ => False
  | _ => True
  end.

(** What of an entry no event changes. *)
Definition identity_of (f : FileItem) : string * File * string * string * N :=
  (id f, file f, name f, path f, size f).

(** The group of the name [n] among the entries [l]: the entries of that
    name in their order, when there is one. *)
Definition group_of (n : string) (l : list FileItem)
  : option (list FileItem) :=
  if decide (filter (λ f, name f = n) l = []) then None
  else Some (filter (λ f, name f = n) l).

(** The entry [f] is what the read of [item] alone makes of it: [done]
    with the decoded headers and, in the store [h], the decoded rows, or
    [error] with the message of the rejection. *)
Definition settled_as `{SheetJS} (i : Z) (h : heap) (item f : FileItem)
  : Prop :=
  identity_of f = identity_of item ∧
  match readExcelFile item i with
  | Resolved dec =>
      status f = done ∧ headers f = Some (decoded_headers dec) ∧
      deref h <$> rows_of f = decoded_data dec
  | Rejected err =>
      status f = error ∧ errorMessage f = Some (message err) ∧
      data f = data item
  end.

(* ===================================================================== *)
(** * Properties *)
(* ===================================================================== *)

(** ** Strings *)

Lemma string_app_nil (b : string) : "" +:+ b = b.
Proof. reflexivity. Qed.

Lemma string_app_cons (c : Ascii.ascii) (a b : string) :
  String c a +:+ b = String c (a +:+ b).
Proof. reflexivity. Qed.

Ltac str_norm :=
  repeat (rewrite string_app_nil in * || rewrite string_app_cons in * ).

Lemma string_app_assoc (a b c : string) : (a +:+ b) +:+ c = a +:+ (b +:+ c).
Proof. induction a as [|x a IH]; str_norm; [done | by rewrite IH]. Qed.

Lemma string_app_empty_r (a : string) : a +:+ "" = a.
Proof. induction a as [|x a IH]; str_norm; [done | by rewrite IH]. Qed.

Lemma startsWith_spec (s p : string) :
  startsWith s p = true ↔ ∃ post, s = p +:+ post.
Proof.
  revert s. induction p as [|c p IH]; intros s; simpl.
  - split; [intros _; by exists s | done].
  - destruct s as [|d s].
    + split; [done | intros [post Hs]; discriminate].
    + destruct (decide (c = d)) as [->|Hne].
      * rewrite IH. split; intros [post Hs]; exists post; str_norm.
        -- by rewrite Hs.
        -- by injection Hs.
      * split; [done | intros [post Hs]; str_norm; injection Hs; congruence].
Qed.

Lemma includes_spec (s t : string) :
  includes s t = true ↔ ∃ pre post, s = pre +:+ t +:+ post.
Proof.
  induction s as [|c s IH]; simpl.
  - rewrite orb_false_r, startsWith_spec. split.
    + intros [post Hs]. by exists "", post.
    + intros [pre [post Hs]]. destruct pre; str_norm; [by exists post | discriminate].
  - rewrite orb_true_iff, startsWith_spec, IH. split.
    + intros [[post Hs] | [pre [post Hs]]].
      * by exists "", post.
      * exists (String c pre), post. str_norm. by rewrite Hs.
    + intros [pre [post Hs]]. destruct pre as [|d pre]; str_norm.
      * left. by exists post.
      * right. exists pre, post. by injection Hs.
Qed.

Lemma endsWith_spec (s t : string) :
  endsWith s t = true ↔ ∃ pre, s = pre +:+ t.
Proof.
  induction s as [|c s IH]; simpl.
  - destruct (decide ("" = t)) as [<-|Hne].
    + split; [intros _; by exists "" | done].
    + split; [done |]. intros [pre Hs].
      destruct pre; str_norm; [done | discriminate].
  - destruct (decide (String c s = t)) as [<-|Hne].
    + split; [intros _; by exists "" | done].
    + rewrite IH. split.
      * intros [pre Hs]. exists (String c pre). str_norm. by rewrite Hs.
      * intros [pre Hs]. destruct pre as [|d pre]; str_norm; [done |].
        exists pre. by injection Hs.
Qed.

Lemma join_names (sep n : string) (arr : list string) :
  n ∈ arr → ∃ pre post, join sep arr = pre +:+ n +:+ post.
Proof.
  unfold join. induction arr as [|x arr IH]; intros Hin.
  - by apply elem_of_nil in Hin.
  - apply elem_of_cons in Hin as [->|Hin].
    + destruct arr as [|y arr]; simpl.
      * exists "", "". by rewrite string_app_empty_r.
      * by exists "", (sep +:+ String.concat sep (y :: arr)).
    + destruct (IH Hin) as [pre [post Hj]].
      destruct arr as [|y arr]; [by apply elem_of_nil in Hin |].
      exists (x +:+ sep +:+ pre), post.
      change (String.concat sep (x :: y :: arr))
        with (x +:+ sep +:+ String.concat sep (y :: arr)).
      by rewrite Hj, !string_app_assoc.
Qed.

(** ** Keyword filter *)

(** C5. For every entry list and keyword: when the trimmed keyword is
    empty, [filteredFiles] returns the list itself; otherwise it returns
    the entries, in their order and with their multiplicity, whose
    lower-cased name has the lower-cased keyword as a substring, and it
    is a subsequence of the input. *)
Theorem filteredFiles_keyword `{JsString} (files : list FileItem)
    (options : MergeOptions) :
  (trim (filterKeyword options) = "" →
     filteredFiles files options = files) ∧
  (trim (filterKeyword options) ≠ "" →
     filteredFiles files options `sublist_of` files ∧
     filteredFiles files options =
       filter (λ f, includes (toLowerCase (name f))
                             (toLowerCase (filterKeyword options))) files ∧
     ∀ f, f ∈ filteredFiles files options ↔
          f ∈ files ∧
          ∃ pre post, toLowerCase (name f) =
                      pre +:+ toLowerCase (filterKeyword options) +:+ post).
Proof.
  unfold filteredFiles. split; intros Hkw.
  - by rewrite decide_True.
  - rewrite decide_False by done. split_and!.
    + apply sublist_filter.
    + done.
    + intros f. rewrite list_elem_of_filter, Is_true_true, includes_spec.
      tauto.
Qed.

(** On ASCII names: the empty keyword keeps every entry, and the match
    ignores case. *)
Example filter_examples :
  @filteredFiles AsciiStrings
    [done_item "0" "Report_Jan.xlsx" "Report_Jan.xlsx" [];
     done_item "1" "summary.csv" "summary.csv" []]
    default_options
  = [done_item "0" "Report_Jan.xlsx" "Report_Jan.xlsx" [];
     done_item "1" "summary.csv" "summary.csv" []] ∧
  @filteredFiles AsciiStrings
    [done_item "0" "Report_Jan.xlsx" "Report_Jan.xlsx" [];
     done_item "1" "summary.csv" "summary.csv" []]
    {| addSourceColumn := true; sourceColumnName := "src";
       useSmartMapping := true; sheetIndex := 0;
       outputFileName := "merged"; filterKeyword := "REPORT" |}
  = [done_item "0" "Report_Jan.xlsx" "Report_Jan.xlsx" []].
Proof. split; by vm_compute. Qed.

(** ** Download name *)

Lemma downloadBlob_name_spec (fileName : string) :
  (endsWith fileName ".xlsx" = true → downloadBlob_name fileName = fileName) ∧
  (endsWith fileName ".xlsx" = false →
     downloadBlob_name fileName = fileName +:+ ".xlsx") ∧
  endsWith (downloadBlob_name fileName) ".xlsx" = true.
Proof.
  unfold downloadBlob_name.
  destruct (endsWith fileName ".xlsx") eqn:E; split_and!; try done.
  apply endsWith_spec. by exists fileName.
Qed.

(** C9 (as amended). For every merge download, the delivered file name
    is built from [config.outputFileName], or from [merged_result] when
    that name is empty: it is this base name with [.xlsx] appended
    exactly when the base name does not already end in [.xlsx]. *)
Theorem download_name `{JsString} `{SheetJS} (s : App) (h : heap)
    (fileName : string) (content : bytes) :
  handleMergeAllMatched s = (h, Download fileName content) →
  ∃ base,
    base = (if decide (outputFileName (options s) = "") then "merged_result"
            else outputFileName (options s)) ∧
    (endsWith base ".xlsx" = true → fileName = base) ∧
    (endsWith base ".xlsx" = false → fileName = base +:+ ".xlsx") ∧
    (outputFileName (options s) ≠ "" → fileName = spec_download_name (options s)).
Proof.
  unfold handleMergeAllMatched. intros Hm.
  exists (str_or (outputFileName (options s)) "merged_result").
  case_decide as Hready; [done |].
  destruct (mergeFiles _ _ _) as [h1 [mergedBytes | err]]; [| done].
  injection Hm as _ <- _.
  destruct (downloadBlob_name_spec
              (str_or (outputFileName (options s)) "merged_result"))
    as (Hkeep & Happend & _).
  split_and!; try done.
  unfold str_or, spec_download_name, downloadBlob_name.
  intros Hne. by rewrite decide_False.
Qed.

(** C9, a download whose name is not the configured name with [.xlsx]
    appended: the output name is empty, one decoded entry holds one row,
    and the file is delivered as [merged_result.xlsx], where the
    configured name with the suffix appended is [.xlsx]. *)
Lemma download_name_empty_output_name :
  outputFileName unnamed_options = "" ∧
  (@handleMergeAllMatched AsciiStrings BlankCodec
     (one_row_app unnamed_options)).2
    = Download "merged_result.xlsx" [] ∧
  spec_download_name unnamed_options = ".xlsx" ∧
  "merged_result.xlsx" ≠ spec_download_name unnamed_options.
Proof. split_and!; by vm_compute. Qed.

Lemma download_name_witness :
  "merged.xlsx" = spec_download_name default_options.
Proof.
  destruct (@download_name AsciiStrings BlankCodec
              (one_row_app default_options) _ "merged.xlsx" _
              ltac:(vm_compute; reflexivity))
    as (base & _ & _ & _ & Hspec).
  by apply Hspec.
Defined.

(** ** The row store and the merge loop *)

Lemma deref_app_l (h h2 : heap) (l : loc) :
  l < length h → deref (h ++ h2) l = deref h l.
Proof. intros Hl. unfold deref. by rewrite lookup_app_l. Qed.

Lemma deref_fresh (h written : heap) :
  deref (h ++ written) <$> seq (length h) (length written) = written.
Proof.
  apply list_eq. intros i. rewrite list_lookup_fmap.
  destruct (decide (i < length written)) as [Hi|Hi].
  - rewrite lookup_seq_lt by done. simpl. unfold deref.
    rewrite lookup_app_r by lia.
    replace (length h + i - length h) with i by lia.
    destruct (lookup_lt_is_Some_2 written i Hi) as [r Hr]. by rewrite Hr.
  - rewrite lookup_seq_ge by lia. symmetry. apply lookup_ge_None. lia.
Qed.

Lemma processRow_run (options : MergeOptions) (f : FileItem) (r : loc)
    (h : heap) :
  processRow options f r h
  = (h ++ [emitted_row options f (deref h r)], length h).
Proof.
  unfold processRow, St_bind, spread, emitted_row, assign, St_ret.
  destruct (addSourceColumn options); [| done].
  rewrite alter_app_r_alt by lia. by rewrite Nat.sub_diag.
Qed.

Lemma array_map_length {A B} (f : A → St B) (arr : list A) (h : heap) :
  length (array_map f arr h).2 = length arr.
Proof.
  revert h. induction arr as [|x arr IH]; intros h; [done |].
  simpl. unfold St_bind. destruct (f x h) as [h1 y].
  specialize (IH h1). destruct (array_map f arr h1) as [h2 ys].
  simpl in *. by rewrite IH.
Qed.

Lemma array_map_processRow (options : MergeOptions) (f : FileItem)
    (rows : list loc) (h : heap) :
  Forall (λ l, l < length h) rows →
  array_map (processRow options f) rows h
  = (h ++ ((λ l, emitted_row options f (deref h l)) <$> rows),
     seq (length h) (length rows)).
Proof.
  revert h. induction rows as [|r rows IH]; intros h Hrows.
  - simpl. unfold St_ret. by rewrite app_nil_r.
  - apply Forall_cons in Hrows as [Hr Hrows].
    simpl. unfold St_bind. rewrite processRow_run.
    rewrite IH; last first.
    { eapply Forall_impl; [done |]. intros l Hl. rewrite length_app. simpl in *. lia. }
    unfold St_ret. rewrite length_app. simpl.
    rewrite <- app_assoc. simpl. f_equal.
    + do 2 f_equal. apply Forall_fmap_ext_1.
      eapply Forall_impl; [done |]. intros l Hl. simpl.
      by rewrite deref_app_l.
    + f_equal. f_equal. lia.
Qed.

Lemma skipped_false (f : FileItem) :
  skipped f = false ↔ status f = done ∧ is_Some (data f).
Proof.
  unfold skipped. rewrite orb_false_iff, negb_false_iff, bool_decide_eq_true.
  destruct (data f) as [d|].
  - split; intros [Hs _]; (split; [done |]); [by exists d | done].
  - split; [by intros [_ ?] |]. intros [_ Hd]. by apply is_Some_None in Hd.
Qed.

Lemma participants_cons (f : FileItem) (files : list FileItem) :
  participants (f :: files)
  = if skipped f then participants files else f :: participants files.
Proof.
  unfold participants. destruct (skipped f) eqn:E.
  - rewrite filter_cons_False; [done |]. rewrite <- skipped_false. congruence.
  - rewrite filter_cons_True; [done |]. by apply skipped_false.
Qed.

Lemma refs_in_store_app (h h2 : heap) (files : list FileItem) :
  refs_in_store h files → refs_in_store (h ++ h2) files.
Proof.
  unfold refs_in_store. intros Hf. eapply Forall_impl; [exact Hf |].
  intros f Hrows. eapply Forall_impl; [exact Hrows |].
  intros l Hl. simpl in *. rewrite length_app. lia.
Qed.

Lemma emitted_rows_cons (options : MergeOptions) (h : heap) (f : FileItem)
    (files : list FileItem) :
  emitted_rows options h (f :: files)
  = if skipped f then emitted_rows options h files
    else ((λ l, emitted_row options f (deref h l)) <$> rows_of f)
           ++ emitted_rows options h files.
Proof.
  unfold emitted_rows. rewrite participants_cons. by destruct (skipped f).
Qed.

Lemma emitted_rows_app (options : MergeOptions) (h h2 : heap)
    (files : list FileItem) :
  refs_in_store h files →
  emitted_rows options (h ++ h2) files = emitted_rows options h files.
Proof.
  induction files as [|f files IH]; intros Hrefs; [done |].
  apply Forall_cons in Hrefs as [Hf Hrefs].
  rewrite !emitted_rows_cons, IH by done.
  destruct (skipped f); [done |]. f_equal.
  apply Forall_fmap_ext_1. eapply Forall_impl; [done |].
  intros l Hl. simpl. by rewrite deref_app_l.
Qed.

Lemma collectRows_run (options : MergeOptions) (files : list FileItem)
    (allData : list loc) (h : heap) :
  refs_in_store h files →
  collectRows options files allData h
  = (h ++ emitted_rows options h files,
     allData ++ seq (length h) (length (emitted_rows options h files))).
Proof.
  revert allData h. induction files as [|f files IH]; intros allData h Hrefs.
  - simpl. unfold St_ret, emitted_rows. simpl. by rewrite !app_nil_r.
  - pose proof Hrefs as Hall. apply Forall_cons in Hrefs as [Hf Hrefs].
    simpl. rewrite emitted_rows_cons. destruct (skipped f); [by apply IH |].
    unfold St_bind. fold (rows_of f). rewrite array_map_processRow by done.
    rewrite IH by by apply refs_in_store_app.
    rewrite emitted_rows_app by done.
    rewrite !length_app, !length_fmap, seq_app, <- !app_assoc. done.
Qed.

Lemma collectRows_length (options : MergeOptions) (files : list FileItem)
    (allData : list loc) (h : heap) :
  length (collectRows options files allData h).2
  = length allData + length (participants files ≫= rows_of).
Proof.
  revert allData h. induction files as [|f files IH]; intros allData h.
  - simpl. lia.
  - simpl. rewrite participants_cons. destruct (skipped f); [by apply IH |].
    unfold St_bind. fold (rows_of f).
    pose proof (array_map_length (processRow options f) (rows_of f) h) as Hlen.
    destruct (array_map _ _ h) as [h1 processedData]. simpl in Hlen.
    rewrite IH, length_app, bind_cons, length_app. lia.
Qed.

Lemma collectRows_no_rows (options : MergeOptions) (files : list FileItem)
    (allData : list loc) (h : heap) :
  participants files ≫= rows_of = [] →
  collectRows options files allData h = (h, allData).
Proof.
  revert allData. induction files as [|f files IH]; intros allData Hnone.
  - done.
  - simpl. rewrite participants_cons in Hnone.
    destruct (skipped f); [by apply IH |].
    rewrite bind_cons in Hnone. apply app_eq_nil in Hnone as [Hf Hrest].
    fold (rows_of f). rewrite Hf. simpl. unfold St_bind, St_ret.
    rewrite app_nil_r. by apply IH.
Qed.




Lemma emitted_row_other_keys (options : MergeOptions) (f : FileItem)
    (r : row) (k : string) :
  k ≠ sourceColumnName options → emitted_row options f r !! k = r !! k.
Proof.
  intros Hk. unfold emitted_row, set_property.
  destruct (addSourceColumn options); [| done].
  case_decide; [done |]. by apply lookup_insert_ne.
Qed.

Lemma emitted_rows_other_keys (options : MergeOptions) (h : heap)
    (files : list FileItem) (k : string) :
  k ≠ sourceColumnName options →
  (λ r : row, r !! k) <$> emitted_rows options h files
  = (λ l, deref h l !! k) <$> (participants files ≫= rows_of).
Proof.
  intros Hk. unfold emitted_rows.
  induction (participants files) as [|f ps IH]; [done |].
  rewrite !bind_cons, !fmap_app, IH. f_equal.
  rewrite <- list_fmap_compose. apply list_fmap_ext. intros j l _. simpl.
  by apply emitted_row_other_keys.
Qed.

Lemma mergeFiles_run `{SheetJS} (options : MergeOptions)
    (files : list FileItem) (h : heap) :
  refs_in_store h files →
  mergeFiles files options h
  = (h ++ emitted_rows options h files,
     match emitted_rows options h files with
     | [] => Rejected no_data
     | _ => Resolved (merged_workbook (emitted_rows options h files))
     end).
Proof.
  intros Hrefs. unfold mergeFiles, St_bind.
  rewrite collectRows_run by done. simpl.
  destruct (emitted_rows options h files) as [|r written] eqn:E; [done |].
  rewrite decide_False by (rewrite length_seq; done).
  unfold snapshot, St_ret, merged_workbook. by rewrite deref_fresh.
Qed.

(** ** Merge: failure for want of data *)

(** C1 (as amended). [mergeFiles] fails with "No data to merge." if and
    only if the entries with status [done] and a present table hold no
    row in total, which is the case in particular when there is no such
    entry; on that failure the store is left as it was and the result
    carries no bytes. Otherwise it resolves with bytes. *)
Theorem mergeFiles_no_data `{SheetJS} (files : list FileItem)
    (options : MergeOptions) (h : heap) :
  ((mergeFiles files options h).2 = Rejected no_data ↔
     participants files ≫= rows_of = []) ∧
  (participants files ≫= rows_of = [] →
     mergeFiles files options h = (h, Rejected no_data)) ∧
  (participants files = [] →
     mergeFiles files options h = (h, Rejected no_data)) ∧
  (participants files ≫= rows_of ≠ [] →
     ∃ h' content, mergeFiles files options h = (h', Resolved content)).
Proof.
  assert (Hnone : participants files ≫= rows_of = [] →
                  mergeFiles files options h = (h, Rejected no_data)).
  { intros Hnone. unfold mergeFiles, St_bind.
    by rewrite collectRows_no_rows. }
  assert (Hsome : participants files ≫= rows_of ≠ [] →
            ∃ h' content, mergeFiles files options h = (h', Resolved content)).
  { intros Hsome. unfold mergeFiles, St_bind.
    pose proof (collectRows_length options files [] h) as Hlen.
    destruct (collectRows options files [] h) as [h1 allData].
    simpl in Hlen. rewrite decide_False.
    - unfold snapshot, St_ret. by eexists _, _.
    - rewrite Hlen. destruct (participants files ≫= rows_of); [done | simpl; lia]. }
  split_and!; try done.
  - split.
    + intros Hrej.
      destruct (decide (participants files ≫= rows_of = [])) as [|Hne]; [done |].
      destruct (Hsome Hne) as (h' & content & Hm). by rewrite Hm in Hrej.
    + intros Hnil. by rewrite Hnone.
  - intros Hnil. apply Hnone. by rewrite Hnil.
Qed.

(** C1, a merge that fails for want of data although an entry with status
    [done] and a present table was given: the table of that entry is
    empty. *)
Lemma mergeFiles_no_data_with_participant :
  @mergeFiles BlankCodec [done_item "0" "a.csv" "a.csv" []] default_options []
    = ([], Rejected no_data) ∧
  status (done_item "0" "a.csv" "a.csv" []) = done ∧
  data (done_item "0" "a.csv" "a.csv" []) = Some [] ∧
  participants [done_item "0" "a.csv" "a.csv" []]
    = [done_item "0" "a.csv" "a.csv" []].
Proof. split_and!; by vm_compute. Qed.

(** The same end to end: a file that decodes to no rows becomes a [done]
    entry, and the merge request ends in the failure message. *)
Example empty_table_merge_request :
  (λ f, (name f, status f, data f))
    <$> files (@run BlankCodec CountingIds
                 [FilesSelected [xlsx_file "a.csv"]; ReadSettled 0]
                 (initial "2026-01-01"))
    = [("a.csv", done, Some [])] ∧
  (@handleMergeAllMatched AsciiStrings BlankCodec
     (@run BlankCodec CountingIds
        [FilesSelected [xlsx_file "a.csv"]; ReadSettled 0]
        (initial "2026-01-01"))).2
    = Alert "合并失败: No data to merge.".
Proof. split; by vm_compute. Qed.

(** ** Merge: the rows written *)


(** C4. The rows a merge writes are the rows of the participating
    entries, entry after entry in the order of the entries given, each
    entry's rows in their own order, none dropped, merged or moved: as
    many as the entries hold, and under every key but the source column
    they read as the stored rows do, one after the other; two decoded
    entries of 3 and 5 rows give 8 rows, the 3 before the 5. *)
Theorem mergeFiles_row_order `{SheetJS} (options : MergeOptions)
    (files : list FileItem) (h : heap) :
  refs_in_store h files →
  ∃ h' allData,
    collectRows options files [] h = (h', allData) ∧
    deref h' <$> allData
      = mjoin ((λ f, (λ l, emitted_row options f (deref h l)) <$> rows_of f)
                 <$> participants files) ∧
    (allData ≠ [] →
       mergeFiles files options h
         = (h', Resolved (merged_workbook (deref h' <$> allData)))) ∧
    length allData = length (participants files ≫= rows_of) ∧
    (∀ k, k ≠ sourceColumnName options →
       (λ r : row, r !! k) <$> (deref h' <$> allData)
       = (λ l, deref h l !! k) <$> (participants files ≫= rows_of)) ∧
    (addSourceColumn options = false →
       deref h' <$> allData = deref h <$> (participants files ≫= rows_of)) ∧
    (∀ f1 f2 rows1 rows2,
       files = [f1; f2] →
       status f1 = done → data f1 = Some rows1 → length rows1 = 3 →
       status f2 = done → data f2 = Some rows2 → length rows2 = 5 →
       length allData = 8 ∧
       deref h' <$> allData
         = ((λ l, emitted_row options f1 (deref h l)) <$> rows1) ++
           ((λ l, emitted_row options f2 (deref h l)) <$> rows2)).
Proof.
  intros Hrefs.
  exists (h ++ emitted_rows options h files),
         (seq (length h) (length (emitted_rows options h files))).
  assert (Hjoin : ∀ fs : list FileItem,
            fs ≫= (λ f, (λ l, emitted_row options f (deref h l)) <$> rows_of f)
            = mjoin ((λ f, (λ l, emitted_row options f (deref h l)) <$> rows_of f)
                       <$> fs)).
  { intros fs. induction fs as [|f fs IH]; [done |].
    rewrite bind_cons, fmap_cons, IH. done. }
  split_and!.
  - by rewrite collectRows_run.
  - rewrite deref_fresh. apply Hjoin.
  - intros Hne. rewrite mergeFiles_run by done. rewrite deref_fresh.
    destruct (emitted_rows options h files); [done | done].
  - pose proof (collectRows_length options files [] h) as Hlen.
    rewrite collectRows_run in Hlen by done. exact Hlen.
  - intros k Hk. rewrite deref_fresh. by apply emitted_rows_other_keys.
  - intros Hadd. rewrite deref_fresh. unfold emitted_rows, emitted_row.
    rewrite Hadd. induction (participants files) as [|f ps IH]; [done |].
    by rewrite !bind_cons, fmap_app, IH.
  - intros f1 f2 rows1 rows2 -> Hs1 Hd1 Hl1 Hs2 Hd2 Hl2.
    rewrite deref_fresh, length_seq.
    assert (Hp : ∀ f rows, status f = done → data f = Some rows →
                 skipped f = false).
    { intros f rows Hs Hd. apply skipped_false. split; [done |].
      by rewrite Hd. }
    rewrite !emitted_rows_cons, (Hp f1 rows1), (Hp f2 rows2) by done.
    unfold emitted_rows, participants, rows_of. rewrite Hd1, Hd2. simpl.
    rewrite app_nil_r. split; [| done].
    rewrite length_app, !length_fmap. lia.
Qed.

Lemma two_entries_in_store : refs_in_store eight_rows two_entries.
Proof. repeat (constructor; simpl; try lia). Qed.



Lemma mergeFiles_row_order_witness :
  ∃ h' allData,
    collectRows default_options two_entries [] eight_rows = (h', allData) ∧
    deref h' <$> allData
      = mjoin ((λ f, (λ l, emitted_row default_options f (deref eight_rows l))
                       <$> rows_of f) <$> participants two_entries) ∧
    (allData ≠ [] →
       @mergeFiles BlankCodec two_entries default_options eight_rows
         = (h', Resolved (@merged_workbook BlankCodec (deref h' <$> allData)))) ∧
    (∀ f1 f2 rows1 rows2,
       two_entries = [f1; f2] →
       status f1 = done → data f1 = Some rows1 → length rows1 = 3 →
       status f2 = done → data f2 = Some rows2 → length rows2 = 5 →
       length allData = 8 ∧
       deref h' <$> allData
         = ((λ l, emitted_row default_options f1 (deref eight_rows l)) <$> rows1) ++
           ((λ l, emitted_row default_options f2 (deref eight_rows l)) <$> rows2)).
Proof.
  destruct (@mergeFiles_row_order BlankCodec default_options two_entries
              eight_rows two_entries_in_store)
    as (h' & allData & Hrun & Hrows & Hmerge & _ & _ & _ & Hcount).
  by exists h', allData.
Defined.

(** The source column of the first written row replaces the value the
    row held, and the stored row keeps its own. *)
Example source_column_overwrites :
  let '(h', allData) := collectRows default_options two_entries [] eight_rows in
  length allData = 8 ∧
  (deref h' <$> allData) !! 0
    = Some (<["src" := CStr "folder/a.xlsx"]> (numbered_row 0)) ∧
  (deref h' <$> allData) !! 3
    = Some (<["src" := CStr "folder/b.xlsx"]> (numbered_row 3)) ∧
  h' !! 0 = Some (<["src" := CStr "old"]> (numbered_row 0)).
Proof.
  rewrite collectRows_run by apply two_entries_in_store.
  rewrite deref_fresh. split_and!; done.
Qed.

(** ** Decoder *)

(** C7. When a workbook was read and [sheetIndex] is outside its sheet
    list, [readExcelFile] rejects with the error that names the index,
    as the engine prints it, and every available sheet name. Every
    failure of the decoding is a rejection of the returned promise: a
    failed read, a read without result, an error thrown by the codec
    while it reads the workbook or converts the sheet, and the missing
    sheet; and the promise is rejected in no other case. *)
Theorem readExcelFile_sheet_not_found `{SheetJS} (fileItem : FileItem)
    (i : Z) (buffer : bytes) (workbook : WorkBook WorkSheet) :
  file_read (file fileItem) = Loaded (Some buffer) →
  XLSX_read buffer = Normal workbook →
  (i < 0 ∨ Z.of_nat (length (SheetNames workbook)) ≤ i)%Z →
  readExcelFile fileItem i
    = Rejected (Error ("Sheet at index " +:+ Number_toString i +:+
                       " not found. Available sheets: " +:+
                       join ", " (SheetNames workbook))) ∧
  (∀ n, n ∈ SheetNames workbook →
     ∃ e, readExcelFile fileItem i = Rejected e ∧
          includes (message e) n = true) ∧
  (∀ (item : FileItem) (j : Z),
     (file_read (file item) = ReadFailed →
        readExcelFile item j = Rejected (Error "File reading failed.")) ∧
     (file_read (file item) = Loaded None →
        readExcelFile item j = Rejected (Error "No data read from file.")) ∧
     (∀ data e, file_read (file item) = Loaded (Some data) →
        XLSX_read data = Throw e → readExcelFile item j = Rejected e) ∧
     (∀ data wb sheetName e,
        file_read (file item) = Loaded (Some data) →
        XLSX_read data = Normal wb →
        array_index (SheetNames wb) j = Some sheetName → sheetName ≠ "" →
        sheet_to_json (Sheets wb !! sheetName) = Throw e →
        readExcelFile item j = Rejected e) ∧
     (∀ data wb,
        file_read (file item) = Loaded (Some data) →
        XLSX_read data = Normal wb →
        array_index (SheetNames wb) j = None →
        readExcelFile item j = Rejected (sheet_not_found j (SheetNames wb))) ∧
     (∀ e, readExcelFile item j = Rejected e →
        file_read (file item) = ReadFailed ∨
        ∃ result, file_read (file item) = Loaded result ∧
                  onload result j = Throw e)).
Proof.
  intros Hread Hbook Hrange.
  assert (Hrej : readExcelFile fileItem i
                 = Rejected (sheet_not_found i (SheetNames workbook))).
  { unfold readExcelFile, onload. rewrite Hread, Hbook. simpl.
    unfold array_index. case_decide as Hneg; [done |].
    rewrite (proj2 (lookup_ge_None _ _)); [done | lia]. }
  split_and!.
  - exact Hrej.
  - intros n Hn. eexists. split; [exact Hrej |]. apply includes_spec.
    destruct (join_names ", " n _ Hn) as (pre & post & Hj).
    exists ("Sheet at index " +:+ Number_toString i +:+
            " not found. Available sheets: " +:+ pre), post.
    unfold sheet_not_found. simpl. rewrite Hj.
    by rewrite !string_app_assoc.
  - intros item j. split_and!.
    + unfold readExcelFile. intros ->. done.
    + unfold readExcelFile, onload. intros ->. done.
    + unfold readExcelFile, onload. intros data e -> ->. done.
    + unfold readExcelFile, onload.
      intros data wb sheetName e -> -> Hname Hne Hjson. simpl.
      by rewrite Hname, decide_False, Hjson.
    + unfold readExcelFile, onload. intros data wb -> -> Hname. simpl.
      by rewrite Hname.
    + unfold readExcelFile. intros e.
      destruct (file_read (file item)) as [result|]; [| by left].
      intros Hsettle. right. exists result. split; [done |].
      destruct (onload result j) as [d|e']; simpl in Hsettle; congruence.
Qed.

Lemma readExcelFile_sheet_not_found_witness :
  @readExcelFile BlankCodec (new_item "0" (xlsx_file "a.xlsx")) 1
    = Rejected (Error "Sheet at index 1 not found. Available sheets: Sheet1").
Proof.
  exact (proj1 (@readExcelFile_sheet_not_found BlankCodec
                  (new_item "0" (xlsx_file "a.xlsx")) 1 []
                  {| SheetNames := ["Sheet1"]; Sheets := {["Sheet1" := []]} |}
                  eq_refl eq_refl ltac:(right; simpl; lia))).
Defined.

(** C10. When the selected sheet of a workbook that was read yields no
    data row, [readExcelFile] resolves with no rows and no headers. The
    rest of the iteration then writes the registry once: every entry
    with the identifier of the file becomes [done] with an empty table
    and no headers, whatever it was, no entry gets an error message from
    it, every other entry stays as it is, and nothing is added to the
    store. An entry with an empty table adds no row to a merge. *)
Theorem readExcelFile_empty_sheet `{SheetJS} (fileItem : FileItem) (i : Z)
    (buffer : bytes) (workbook : WorkBook WorkSheet) (sheetName : string) :
  file_read (file fileItem) = Loaded (Some buffer) →
  XLSX_read buffer = Normal workbook →
  array_index (SheetNames workbook) i = Some sheetName →
  sheetName ≠ "" →
  sheet_to_json (Sheets workbook !! sheetName) = Normal [] →
  readExcelFile fileItem i
    = Resolved {| decoded_data := []; decoded_headers := [] |} ∧
  (∀ s, store (finish fileItem (readExcelFile fileItem i) s) = store s ∧
        files (finish fileItem (readExcelFile fileItem i) s)
          = mark_done (id fileItem) [] [] (files s) ∧
        observed (finish fileItem (readExcelFile fileItem i) s)
          = observed s ++ [files (finish fileItem (readExcelFile fileItem i) s)]) ∧
  (∀ s k f, files s !! k = Some f →
     ∃ f', files (finish fileItem (readExcelFile fileItem i) s) !! k = Some f' ∧
           errorMessage f' = errorMessage f ∧
           (id f = id fileItem →
              f' = with_done f [] [] ∧ status f' = done ∧
              data f' = Some [] ∧ headers f' = Some []) ∧
           (id f ≠ id fileItem → f' = f)) ∧
  (∀ s, length (files (finish fileItem (readExcelFile fileItem i) s))
        = length (files s)) ∧
  (∀ f, status (with_done f [] []) = done ∧
        data (with_done f [] []) = Some [] ∧
        headers (with_done f [] []) = Some []) ∧
  (∀ f options before after allData h,
     collectRows options (before ++ with_done f [] [] :: after) allData h
     = collectRows options (before ++ after) allData h).
Proof.
  intros Hread Hbook Hname Hne Hjson.
  assert (Hdec : readExcelFile fileItem i
                 = Resolved {| decoded_data := []; decoded_headers := [] |}).
  { unfold readExcelFile, onload. rewrite Hread, Hbook. simpl.
    rewrite Hname, decide_False by done. by rewrite Hjson. }
  assert (Hfiles : ∀ s, files (finish fileItem (readExcelFile fileItem i) s)
                        = mark_done (id fileItem) [] [] (files s)).
  { intros s. rewrite Hdec. unfold finish, setFiles, set_store. done. }
  split_and!; [done | | | | done |].
  - intros s. split_and!; [| apply Hfiles |].
    + rewrite Hdec. unfold finish, setFiles, set_store. simpl.
      by rewrite app_nil_r.
    + rewrite Hdec. unfold finish, setFiles, set_store. done.
  - intros s k f Hk. rewrite Hfiles. unfold mark_done.
    rewrite list_lookup_fmap, Hk. simpl.
    destruct (decide (id f = id fileItem)) as [Hid|Hid].
    + exists (with_done f [] []). split_and!; done.
    + exists f. split_and!; done.
  - intros s. rewrite Hfiles. unfold mark_done. by rewrite length_fmap.
  - intros f options before after allData h. revert allData h.
    induction before as [|b before IH]; intros allData h; simpl.
    + unfold St_bind, St_ret. by rewrite app_nil_r.
    + destruct (skipped b); [by apply IH |].
      unfold St_bind. destruct (array_map _ _ h) as [h1 processedData].
      apply IH.
Qed.

Lemma readExcelFile_empty_sheet_witness :
  @readExcelFile BlankCodec (new_item "0" (xlsx_file "a.xlsx")) 0
    = Resolved {| decoded_data := []; decoded_headers := [] |}.
Proof.
  exact (proj1 (@readExcelFile_empty_sheet BlankCodec
                  (new_item "0" (xlsx_file "a.xlsx")) 0 []
                  {| SheetNames := ["Sheet1"]; Sheets := {["Sheet1" := []]} |}
                  "Sheet1" eq_refl eq_refl eq_refl ltac:(done) eq_refl)).
Defined.

(** ** Schema suggestion *)

Lemma Set_add_elem (allHeaders : list string) (col x : string) :
  x ∈ Set_add allHeaders col ↔ x ∈ allHeaders ∨ x = col.
Proof.
  unfold Set_add. case_decide as Hin.
  - split; [by left | intros [?| ->]; done].
  - rewrite elem_of_app, list_elem_of_singleton. done.
Qed.

Lemma Set_add_NoDup (allHeaders : list string) (col : string) :
  NoDup allHeaders → NoDup (Set_add allHeaders col).
Proof.
  intros Hnd. unfold Set_add. case_decide as Hin; [done |].
  apply NoDup_app. split_and!; [done | | apply NoDup_singleton].
  intros x Hx Hx'. apply list_elem_of_singleton in Hx'. by subst.
Qed.

Lemma Set_add_all_elem (h : list string) (allHeaders : list string)
    (x : string) :
  x ∈ foldl Set_add allHeaders h ↔ x ∈ allHeaders ∨ x ∈ h.
Proof.
  revert allHeaders. induction h as [|col h IH]; intros allHeaders; simpl.
  - rewrite elem_of_nil. tauto.
  - rewrite IH, Set_add_elem, elem_of_cons. tauto.
Qed.

Lemma Set_add_all_NoDup (h : list string) (allHeaders : list string) :
  NoDup allHeaders → NoDup (foldl Set_add allHeaders h).
Proof.
  revert allHeaders. induction h as [|col h IH]; intros allHeaders Hnd; simpl.
  - done.
  - by apply IH, Set_add_NoDup.
Qed.

Lemma union_from_elem (fileHeaders : list (list string))
    (allHeaders : list string) (x : string) :
  x ∈ foldl (λ acc h, foldl Set_add acc h) allHeaders fileHeaders
  ↔ x ∈ allHeaders ∨ ∃ h, h ∈ fileHeaders ∧ x ∈ h.
Proof.
  revert allHeaders.
  induction fileHeaders as [|h fileHeaders IH]; intros allHeaders; simpl.
  - split; [by left |]. intros [?|(h & Hh & _)]; [done |].
    by apply elem_of_nil in Hh.
  - rewrite IH, Set_add_all_elem. split.
    + intros [[?|?]|(h' & Hh' & Hx)].
      * by left.
      * right. exists h. split; [apply elem_of_cons; by left | done].
      * right. exists h'. split; [apply elem_of_cons; by right | done].
    + intros [?|(h' & Hh' & Hx)]; [by left; left |].
      apply elem_of_cons in Hh' as [->|Hh'].
      * left. by right.
      * right. by exists h'.
Qed.

Lemma union_from_NoDup (fileHeaders : list (list string))
    (allHeaders : list string) :
  NoDup allHeaders →
  NoDup (foldl (λ acc h, foldl Set_add acc h) allHeaders fileHeaders).
Proof.
  revert allHeaders.
  induction fileHeaders as [|h fileHeaders IH]; intros allHeaders Hnd; simpl.
  - done.
  - by apply IH, Set_add_all_NoDup.
Qed.

(** The fallback is the set union of the header lists, without
    repetition. *)
Lemma union_of_headers_spec (fileHeaders : list (list string)) :
  NoDup (union_of_headers fileHeaders) ∧
  ∀ x, x ∈ union_of_headers fileHeaders ↔ ∃ h, h ∈ fileHeaders ∧ x ∈ h.
Proof.
  unfold union_of_headers. split.
  - apply union_from_NoDup, NoDup_nil_2.
  - intros x. rewrite union_from_elem, elem_of_nil. tauto.
Qed.

(** C2 (as amended). For every non-empty sequence of header lists and
    a client that was constructed: when the remote call is rejected, or
    the text of its reply is not parseable JSON, [getSmartMapping]
    resolves with the union of all input headers, each once; when the
    reply parses to an object without the [unifiedHeaders] field, it
    resolves with the empty list. No failure of the call or of the
    parsing is passed on: the promise is rejected exactly when the
    constructor of the client throws, which happens before the call. *)
Theorem getSmartMapping_fallback `{GenAI} (fileHeaders : list (list string)) :
  fileHeaders ≠ [] →
  (∀ ai, new_GoogleGenAI = Normal ai →
     (∀ e, generateContent ai (prompt_of fileHeaders) = Rejected e →
        getSmartMapping fileHeaders
          = Resolved (JArr (JStr <$> union_of_headers fileHeaders))) ∧
     (∀ text e,
        generateContent ai (prompt_of fileHeaders) = Resolved text →
        JSON_parse (str_or (default "" text) "{}") = Throw e →
        getSmartMapping fileHeaders
          = Resolved (JArr (JStr <$> union_of_headers fileHeaders))) ∧
     (∀ text fields,
        generateContent ai (prompt_of fileHeaders) = Resolved text →
        JSON_parse (str_or (default "" text) "{}") = Normal (JObj fields) →
        "unifiedHeaders" ∉ fields.*1 →
        getSmartMapping fileHeaders = Resolved (JArr [])) ∧
     (∃ v, getSmartMapping fileHeaders = Resolved v)) ∧
  (∀ e, getSmartMapping fileHeaders = Rejected e ↔ new_GoogleGenAI = Throw e) ∧
  NoDup (union_of_headers fileHeaders) ∧
  (∀ x, x ∈ union_of_headers fileHeaders ↔ ∃ h, h ∈ fileHeaders ∧ x ∈ h).
Proof.
  intros Hne.
  assert (Hlen : ¬ length fileHeaders < 1).
  { destruct fileHeaders; [done | simpl; lia]. }
  assert (Htext : ∀ text : option string,
            match text with Some t => str_or t "{}" | None => "{}" end
            = str_or (default "" text) "{}").
  { by intros [t|]. }
  unfold getSmartMapping. rewrite decide_False by done.
  split_and!.
  - intros ai ->. unfold askModel. split_and!.
    + intros e ->. done.
    + intros text e ->. rewrite Htext. intros ->. done.
    + intros text fields ->. rewrite Htext. intros -> Hmiss. simpl.
      destruct (list_find _ fields) as [[k [key v]]|] eqn:Hfind; [| done].
      exfalso. apply list_find_Some in Hfind as (Hk & Hkey & _).
      simpl in Hkey. apply Hmiss. apply list_elem_of_fmap.
      exists (key, v). split; [done |]. by eapply list_elem_of_lookup_2.
    + destruct (generateContent _ _) as [text|e]; [| by eexists].
      destruct (completion_bind _ _); by eexists.
  - intros e. destruct new_GoogleGenAI as [ai|e'].
    + split; [| done]. by destruct (askModel ai fileHeaders).
    + split; intros [= ->]; done.
  - apply union_of_headers_spec.
  - apply union_of_headers_spec.
Qed.

Lemma getSmartMapping_fallback_witness :
  @getSmartMapping Offline [["A"; "B"]; ["B"; "C"]]
    = Resolved (JArr [JStr "A"; JStr "B"; JStr "C"]).
Proof.
  exact (proj1 (proj1 (@getSmartMapping_fallback Offline
                         [["A"; "B"]; ["B"; "C"]] ltac:(done))
                      tt eq_refl)
               (Error "fetch failed") eq_refl).
Defined.

(** Without a key the constructor throws, and the promise is rejected
    although the fallback could be computed. *)
Example constructor_throws :
  @getSmartMapping Keyless [["A"; "B"]; ["B"; "C"]]
    = Rejected (Error "An API Key must be set") ∧
  @getSmartMapping Keyless [] = Resolved (JArr []).
Proof. split; by vm_compute. Qed.

(** C2, a reply that parses but lacks the field: the reply is the empty
    object, or carries no text so that the text defaults to the empty
    object; the result is the empty list, not the union of the headers. *)
Lemma getSmartMapping_missing_field :
  @JSON_parse (Replying (Some "{}")) "{}" = Normal (JObj []) ∧
  unifiedHeaders_of (JObj []) = Normal None ∧
  @getSmartMapping (Replying (Some "{}")) [["A"; "B"]; ["B"; "C"]]
    = Resolved (JArr []) ∧
  @getSmartMapping (Replying None) [["A"; "B"]; ["B"; "C"]]
    = Resolved (JArr []) ∧
  union_of_headers [["A"; "B"]; ["B"; "C"]] = ["A"; "B"; "C"].
Proof. split_and!; by vm_compute. Qed.

(** ** Registry: histories and updates by identifier *)

Lemma default_last_cons {A} (x z : A) (l : list A) :
  default x (last (z :: l)) = default z (last l).
Proof.
  destruct l as [|w l]; [done |].
  change (last (z :: w :: l)) with (last (w :: l)).
  destruct (last (w :: l)) eqn:E; [done |]. by apply last_None in E.
Qed.

Lemma chain_snoc {A} (R : A → A → Prop) (x y : A) (l : list A) :
  chain R x l → R (default x (last l)) y → chain R x (l ++ [y]).
Proof.
  revert x. induction l as [|z l IH]; intros x Hc Hy.
  - done.
  - destruct Hc as [Hxz Hc]. split; [done |]. apply IH; [done |].
    by rewrite <- (default_last_cons x).
Qed.

Lemma chain_app {A} (R : A → A → Prop) (x : A) (l1 l2 : list A) :
  chain R x (l1 ++ l2) → chain R x l1.
Proof.
  revert x. induction l1 as [|z l1 IH]; intros x Hc; simpl in *; [done |].
  destruct Hc as [Hxz Hc]. split; [done | by apply IH].
Qed.

Lemma mark_processing_update (i : string) (prev : list FileItem) :
  mark_processing i prev = update_where i with_processing prev.
Proof. done. Qed.

Lemma mark_done_update (i : string) (d : list loc) (hs : list string)
    (prev : list FileItem) :
  mark_done i d hs prev = update_where i (λ f, with_done f d hs) prev.
Proof. done. Qed.

Lemma mark_error_update (i msg : string) (prev : list FileItem) :
  mark_error i msg prev = update_where i (λ f, with_error f msg) prev.
Proof. done. Qed.

Lemma elem_of_update_where (i : string) (g : FileItem → FileItem)
    (prev : list FileItem) (f' : FileItem) :
  (∀ f, id (g f) = id f) →
  f' ∈ update_where i g prev →
  ∃ f, f ∈ prev ∧ id f' = id f ∧
       (id f ≠ i → f' = f) ∧ (id f = i → f' = g f).
Proof.
  intros Hid Hin. apply list_elem_of_fmap in Hin as (f & -> & Hf).
  exists f. destruct (decide (id f = i)) as [Hi|Hi]; split_and!; try done.
Qed.

Lemma update_where_step (i : string) (g : FileItem → FileItem)
    (prev : list FileItem) :
  (∀ f, f ∈ prev → id f = i → entry_step f (g f)) →
  Forall2 entry_step prev (update_where i g prev).
Proof.
  intros Hg. unfold update_where. apply Forall2_fmap_r.
  apply Forall2_same_length_lookup. split; [done |].
  intros k f f' Hf Hf'. assert (f' = f) as -> by congruence.
  unfold compose. destruct (decide (id f = i)) as [Hi|Hi].
  - apply Hg; [| done]. by eapply list_elem_of_lookup_2.
  - constructor.
Qed.

Lemma update_where_ids (P : string → Prop) (i : string)
    (g : FileItem → FileItem) (prev : list FileItem) :
  (∀ f, id (g f) = id f) →
  Forall (λ f, P (id f)) prev →
  Forall (λ f, P (id f)) (update_where i g prev).
Proof.
  intros Hid Hall. apply Forall_forall. intros f' Hf'.
  destruct (elem_of_update_where i g prev f' Hid Hf') as (f & Hf & Hidf & _).
  rewrite Hidf. by eapply (proj1 (Forall_forall _ _) Hall).
Qed.

Lemma marks_update_other (i j : string) (st : Status)
    (g : FileItem → FileItem) (prev : list FileItem) :
  (∀ f, id (g f) = id f) →
  j ≠ i → marks prev j st → marks (update_where i g prev) j st.
Proof.
  intros Hid Hne Hm f' Hf' Hj.
  destruct (elem_of_update_where i g prev f' Hid Hf')
    as (f & Hf & Hidf & Hsame & _).
  rewrite Hsame by congruence. apply Hm; [done | congruence].
Qed.

Lemma marks_update_same (i : string) (st : Status)
    (g : FileItem → FileItem) (prev : list FileItem) :
  (∀ f, id (g f) = id f) →
  (∀ f, status (g f) = st) → marks (update_where i g prev) i st.
Proof.
  intros Hid Hst f' Hf' Hi.
  destruct (elem_of_update_where i g prev f' Hid Hf')
    as (f & Hf & Hidf & _ & Hchanged).
  rewrite Hchanged by congruence. apply Hst.
Qed.

Lemma task_ok_frame (files files' : list FileItem) (t : Task) :
  (∀ q, q ∈ queue t → ∀ st, marks files (id q) st → marks files' (id q) st) →
  task_ok files t → task_ok files' t.
Proof.
  unfold task_ok. destruct (queue t) as [|item rest]; [done |].
  intros Hframe [Hitem Hrest]. split.
  - apply Hframe; [apply elem_of_cons; by left | done].
  - apply Forall_forall. intros r Hr.
    apply Hframe; [apply elem_of_cons; by right |].
    by eapply (proj1 (Forall_forall _ _) Hrest).
Qed.

Lemma marks_subset (files files' : list FileItem) (i : string) (st : Status) :
  (∀ f, f ∈ files' → f ∈ files) → marks files i st → marks files' i st.
Proof. intros Hsub Hm f Hf. apply Hm. by apply Hsub. Qed.

Lemma with_ids (f : FileItem) (d : list loc) (hs : list string) (msg : string) :
  id (with_processing f) = id f ∧ id (with_done f d hs) = id f ∧
  id (with_error f msg) = id f.
Proof. done. Qed.

(** ** Registry: the writes of the component *)

Lemma setFiles_history `{MathRandom} (upd : list FileItem → list FileItem)
    (s : App) :
  history_ok s →
  registry_step (files s) (upd (files s)) →
  Forall (λ f, drawn (draws s) (id f)) (upd (files s)) →
  history_ok (setFiles upd s).
Proof.
  intros [Hc Hs Hd] Hstep Hdrawn. split; simpl.
  - apply chain_snoc; [done |]. fold (shown s). by rewrite Hs.
  - unfold shown. simpl. by rewrite last_snoc.
  - done.
Qed.

Lemma update_history `{MathRandom} (i : string) (g : FileItem → FileItem)
    (s : App) :
  history_ok s →
  (∀ f, id (g f) = id f) →
  (∀ f, f ∈ files s → id f = i → entry_step f (g f)) →
  history_ok (setFiles (update_where i g) s).
Proof.
  intros Hok Hid Hstep. apply setFiles_history; [done | |].
  - apply registry_update. by apply update_where_step.
  - apply update_where_ids; [done |]. apply Hok.
Qed.

Lemma remove_history `{MathRandom} (upd : list FileItem → list FileItem)
    (s : App) :
  history_ok s →
  upd (files s) `sublist_of` files s →
  history_ok (setFiles upd s).
Proof.
  intros Hok Hsub. apply setFiles_history; [done | |].
  - by apply registry_remove.
  - eapply Forall_forall. intros f Hf.
    eapply (proj1 (Forall_forall _ _) (ok_files_drawn _ Hok)).
    by eapply elem_of_sublist.
Qed.

Lemma remove_tasks `{MathRandom} (files files' : list FileItem) (n : nat)
    (ts : list Task) :
  (∀ f, f ∈ files' → f ∈ files) →
  tasks_ok files n ts → tasks_ok files' n ts.
Proof.
  intros Hsub [Hd Hn Hm]. split; [done | done |].
  eapply Forall_impl; [exact Hm |]. intros t. apply task_ok_frame.
  intros q _ st. by apply marks_subset.
Qed.

Lemma drawn_mono `{MathRandom} (n m : nat) (i : string) :
  (n ≤ m)%nat → drawn n i → drawn m i.
Proof. intros Hle (k & Hk & ->). exists k. split; [lia | done]. Qed.

Lemma newItems_ids `{MathRandom} (selected : list File) (d : nat) :
  id <$> newItems selected d
  = random_id <$> seq d (length (filter accepted selected)).
Proof.
  unfold newItems. rewrite fmap_imap.
  rewrite <- (imap_seq (filter accepted selected) random_id d).
  by apply imap_ext.
Qed.

Lemma newItems_length `{MathRandom} (selected : list File) (d : nat) :
  length (newItems selected d) = length (filter accepted selected).
Proof. unfold newItems. by rewrite length_imap. Qed.

Lemma newItems_elem `{MathRandom} (selected : list File) (d : nat)
    (it : FileItem) :
  it ∈ newItems selected d →
  ∃ k f, it = new_item (random_id (d + k)) f ∧
         k < length (newItems selected d) ∧ f ∈ selected ∧ accepted f.
Proof.
  unfold newItems. intros Hin.
  apply elem_of_lookup_imap in Hin as (k & f & -> & Hf).
  exists k, f. split_and!; [done | | |].
  - rewrite length_imap. by eapply lookup_lt_Some.
  - apply list_elem_of_lookup_2 in Hf.
    by apply list_elem_of_filter in Hf as [_ ?].
  - apply list_elem_of_lookup_2 in Hf.
    by apply list_elem_of_filter in Hf as [? _].
Qed.

Lemma newItems_pending `{MathRandom} (selected : list File) (d : nat) :
  Forall (λ it, status it = pending) (newItems selected d).
Proof.
  apply Forall_forall. intros it Hit.
  by destruct (newItems_elem selected d it Hit) as (k & f & -> & _).
Qed.

(** ** Lifecycle: every event keeps the invariant *)

Section lifecycle.
Context `{SheetJS} `{MathRandom}.
Hypothesis random_id_inj : ∀ j k, random_id j = random_id k → j = k.

Lemma set_tasks_history (ts : list Task) (s : App) :
  history_ok s → history_ok (set_tasks ts s).
Proof. intros [Hc Hs Hd]. by split. Qed.

Lemma set_store_history (h : heap) (s : App) :
  history_ok s → history_ok (set_store h s).
Proof. intros [Hc Hs Hd]. by split. Qed.

Lemma newItems_fresh (selected : list File) (d : nat) (it : FileItem)
    (i : string) :
  it ∈ newItems selected d → drawn d i → i ≠ id it.
Proof.
  intros Hit (k & Hk & ->).
  destruct (newItems_elem selected d it Hit) as (k' & f & -> & _).
  simpl. intros E. apply random_id_inj in E. lia.
Qed.

Lemma newItems_nodup (selected : list File) (d : nat) :
  NoDup (id <$> newItems selected d).
Proof.
  rewrite newItems_ids. apply NoDup_fmap_2; [| apply NoDup_seq].
  intros j k. apply random_id_inj.
Qed.

Lemma newItems_drawn (selected : list File) (d : nat) :
  Forall (λ f, drawn (d + length (newItems selected d)) (id f))
         (newItems selected d).
Proof.
  apply Forall_forall. intros it Hit.
  destruct (newItems_elem selected d it Hit) as (k & f & -> & Hk & _).
  exists (d + k). split; [lia | done].
Qed.

Lemma queued_elem (ts : list Task) (t : Task) (q : FileItem) :
  t ∈ ts → q ∈ queue t → q ∈ queued ts.
Proof. intros Ht Hq. apply list_elem_of_bind. by exists t. Qed.

Lemma queued_snoc (ts : list Task) (t : Task) :
  queued (ts ++ [t]) = queued ts ++ queue t.
Proof. unfold queued. rewrite bind_app. simpl. by rewrite app_nil_r. Qed.

Lemma queued_middle (pre post : list Task) (t : Task) :
  queued (pre ++ t :: post) = queued pre ++ queue t ++ queued post.
Proof. unfold queued. by rewrite bind_app, bind_cons. Qed.

Lemma processFiles_inv (items : list FileItem) (s : App) :
  lifecycle_inv s →
  Forall (λ it, drawn (draws s) (id it)) items →
  NoDup (id <$> items) →
  (∀ q it, q ∈ queued (tasks s) → it ∈ items → id q ≠ id it) →
  Forall (λ it, marks (files s) (id it) pending) items →
  lifecycle_inv (processFiles items s).
Proof.
  intros [Hh [Hqd Hqn Hm]] Hdrawn Hnodup Hfresh Hpending.
  unfold processFiles.
  assert (Hqueue : ∀ s', tasks s' = tasks s → draws s' = draws s →
            Forall (λ f, drawn (draws s') (id f))
                   (queued (tasks s' ++ [{| queue := items;
                        task_sheetIndex := sheetIndex (options s) |}])) ∧
            NoDup (id <$> queued (tasks s' ++ [{| queue := items;
                        task_sheetIndex := sheetIndex (options s) |}]))).
  { intros s' -> ->. rewrite queued_snoc. simpl. split.
    - by apply Forall_app.
    - rewrite fmap_app. apply NoDup_app. split_and!; [done | | done].
      intros i Hi Hi'.
      apply list_elem_of_fmap in Hi as (q & -> & Hq).
      apply list_elem_of_fmap in Hi' as (it & Hid & Hit).
      by eapply Hfresh. }
  destruct items as [|item rest]; simpl.
  - split.
    + by apply set_tasks_history.
    + destruct (Hqueue s eq_refl eq_refl) as [Hd' Hn'].
      split; simpl; [done | done |].
      apply Forall_app. split; [done |]. by apply Forall_singleton.
  - apply Forall_cons in Hpending as [Hitem Hrest].
    apply Forall_cons in Hdrawn as [_ _].
    rewrite fmap_cons in Hnodup. apply NoDup_cons in Hnodup as [Hnotin _].
    change (mark_processing (id item))
      with (update_where (id item) with_processing). split.
    + apply set_tasks_history, update_history; [done | done |].
      intros f Hf Hid. apply entry_begin. by apply Hitem.
    + destruct (Hqueue (setFiles (update_where (id item) with_processing) s)
                       eq_refl eq_refl) as [Hd' Hn'].
      split; simpl; [done | done |].
      apply Forall_app. split.
      * apply Forall_forall. intros t Ht.
        eapply task_ok_frame; [| by eapply (proj1 (Forall_forall _ _) Hm)].
        intros q Hq st. apply marks_update_other; [done |].
        eapply Hfresh; [by eapply queued_elem |]. apply elem_of_cons. by left.
      * apply Forall_singleton. unfold task_ok. simpl. split.
        -- by apply marks_update_same.
        -- apply Forall_forall. intros r Hr.
           apply marks_update_other; [done | |].
           ++ intros E. apply Hnotin. rewrite <- E.
              by apply list_elem_of_fmap_2.
           ++ by eapply (proj1 (Forall_forall _ _) Hrest).
Qed.

Lemma register_inv (selected : list File) (s : App) :
  lifecycle_inv s →
  lifecycle_inv (register (newItems selected (draws s)) s) ∧
  Forall (λ it, marks (files (register (newItems selected (draws s)) s))
                      (id it) pending)
         (newItems selected (draws s)).
Proof.
  intros [Hh [Hqd Hqn Hm]].
  assert (Hmarks : ∀ i st, drawn (draws s) i → marks (files s) i st →
            marks (files s ++ newItems selected (draws s)) i st).
  { intros i st Hi Hmk f Hf Hid. apply elem_of_app in Hf as [Hf|Hf].
    - by apply Hmk.
    - exfalso. by eapply (newItems_fresh selected (draws s) f i). }
  split; [split |].
  - destruct Hh as [Hc Hs Hd]. unfold register. split; simpl.
    + apply chain_snoc; [done |]. fold (shown s). rewrite Hs.
      apply registry_append, newItems_pending.
    + unfold shown. simpl. by rewrite last_snoc.
    + apply Forall_app. split; [| apply newItems_drawn].
      eapply Forall_impl; [exact Hd |]. intros f. apply drawn_mono. lia.
  - unfold register. split; simpl.
    + eapply Forall_impl; [exact Hqd |]. intros f. apply drawn_mono. lia.
    + done.
    + apply Forall_forall. intros t Ht.
      eapply task_ok_frame; [| by eapply (proj1 (Forall_forall _ _) Hm)].
      intros q Hq st. apply Hmarks.
      eapply (proj1 (Forall_forall _ _) Hqd). by eapply queued_elem.
  - unfold register. simpl. apply Forall_forall. intros it Hit f Hf Hid.
    apply elem_of_app in Hf as [Hf|Hf].
    + exfalso. eapply (newItems_fresh selected (draws s) it (id f)); [done | | done].
      by eapply (proj1 (Forall_forall _ _) (ok_files_drawn _ Hh)).
    + by eapply (proj1 (Forall_forall _ _) (newItems_pending selected (draws s))).
Qed.

Lemma handleFileUpload_inv (selected : list File) (s : App) :
  lifecycle_inv s → lifecycle_inv (handleFileUpload selected s).
Proof.
  intros Hinv. unfold handleFileUpload.
  destruct (register_inv selected s Hinv) as [Hinv1 Hpending].
  apply processFiles_inv; [done | | | | done].
  - unfold register. simpl. apply newItems_drawn.
  - apply newItems_nodup.
  - unfold register. simpl. intros q it Hq Hit.
    eapply newItems_fresh; [done |].
    by eapply (proj1 (Forall_forall _ _) (ok_queue_drawn _ _ _ (proj2 Hinv))).
Qed.

Lemma finish_shape (item : FileItem) (r : promise Decoded) (s : App) :
  ∃ g h, (∀ f, id (g f) = id f) ∧
         (∀ f, name (g f) = name f) ∧
         (∀ f, status f = processing → entry_step f (g f)) ∧
         finish item r s = setFiles (update_where (id item) g) (set_store h s).
Proof.
  destruct s as [fs os st dr ts ob]. destruct r as [dec|err]; simpl.
  - exists (λ f, with_done f (seq (length st) (length (decoded_data dec)))
                          (decoded_headers dec)),
           (st ++ decoded_data dec).
    split_and!; [done | done | intros f Hf; by constructor | done].
  - exists (λ f, with_error f (message err)), st.
    split_and!; [done | done | intros f Hf; by constructor | done].
Qed.

Lemma begin_next_facts (rest : list FileItem) (s : App) :
  history_ok s →
  (∀ next, head rest = Some next → marks (files s) (id next) pending) →
  history_ok (begin_next rest s) ∧
  tasks (begin_next rest s) = tasks s ∧
  draws (begin_next rest s) = draws s ∧
  (∀ j st, (∀ next, head rest = Some next → j ≠ id next) →
           marks (files s) j st → marks (files (begin_next rest s)) j st) ∧
  (∀ next, head rest = Some next →
           marks (files (begin_next rest s)) (id next) processing).
Proof.
  intros Hh Hpending. destruct rest as [|next rest]; simpl.
  - split_and!; try done.
  - change (mark_processing (id next))
      with (update_where (id next) with_processing).
    split_and!; try done.
    + apply update_history; [done | done |].
      intros f Hf Hid. apply entry_begin. by apply (Hpending next).
    + intros j st Hj. simpl. apply marks_update_other; [done |]. by apply Hj.
    + intros next' [= <-]. simpl. by apply marks_update_same.
Qed.

Lemma resume_inv (t : nat) (s : App) :
  lifecycle_inv s → lifecycle_inv (resume t s).
Proof.
  intros Hinv. pose proof Hinv as [Hh [Hqd Hqn Hm]]. unfold resume.
  destruct (tasks s !! t) as [T|] eqn:HT; [| done].
  destruct (queue T) as [|item rest] eqn:HQ; [done |].
  destruct (list_elem_of_split_length _ _ _ HT) as (pre & post & Htasks & Hlen).
  pose proof (Forall_lookup_1 _ _ _ _ Hm HT) as HTok.
  unfold task_ok in HTok. rewrite HQ in HTok. destruct HTok as [Hitem Hrest].
  rewrite Htasks in Hqd, Hqn, Hm. rewrite queued_middle, HQ in Hqd, Hqn.
  apply Forall_app in Hqd as [Hd_pre Hd_mid].
  apply Forall_app in Hd_mid as [Hd_mid Hd_post].
  apply Forall_cons in Hd_mid as [_ Hd_rest].
  rewrite !fmap_app, fmap_cons in Hqn.
  apply NoDup_app in Hqn as (Hn_pre & Hdisj_pre & Hn_mid).
  simpl in Hn_mid. apply NoDup_cons in Hn_mid as [Hitem_notin Hn_mid].
  pose proof Hn_mid as Hn_rest_post.
  apply NoDup_app in Hn_mid as (Hn_rest & Hdisj_rest & Hn_post).
  apply Forall_app in Hm as [Hm_pre Hm_post].
  apply Forall_cons in Hm_post as [_ Hm_post].
  destruct (finish_shape item (readExcelFile item (task_sheetIndex T)) s)
    as (g & h & Hgid & _ & Hgstep & ->).
  set (s1 := setFiles (update_where (id item) g) (set_store h s)).
  assert (Hh1 : history_ok s1).
  { apply update_history; [by apply set_store_history | done |].
    intros f Hf Hid. apply Hgstep. by apply Hitem. }
  assert (Hmarks1 : ∀ j st, j ≠ id item →
            marks (files s) j st → marks (files s1) j st).
  { intros j st Hj. simpl. by apply marks_update_other. }
  assert (Hrest_ne : ∀ r, r ∈ rest → id r ≠ id item).
  { intros r Hr E. apply Hitem_notin. rewrite <- E. apply elem_of_app. left.
    by apply list_elem_of_fmap_2. }
  assert (Hnext : ∀ next, head rest = Some next → next ∈ rest).
  { intros next Hhd. destruct rest; [done |]. injection Hhd as ->.
    apply elem_of_cons. by left. }
  destruct (begin_next_facts rest s1 Hh1) as (Hh2 & Ht2 & Hd2 & Hmarks2 & Hproc).
  { intros next Hhd. apply Hmarks1; [by apply Hrest_ne, Hnext |].
    by eapply (proj1 (Forall_forall _ _) Hrest), Hnext. }
  assert (Hframe : ∀ j st, j ≠ id item → j ∉ id <$> rest →
            marks (files s) j st → marks (files (begin_next rest s1)) j st).
  { intros j st Hj Hjrest Hmk. apply Hmarks2; [| by apply Hmarks1].
    intros next Hhd E. apply Hjrest. rewrite E.
    by apply list_elem_of_fmap_2, Hnext. }
  split.
  - by apply set_tasks_history.
  - simpl tasks. simpl files. simpl draws. rewrite Ht2, Hd2.
    change (tasks s1) with (tasks s). change (draws s1) with (draws s).
    rewrite Htasks, Hlen, insert_app_r_alt, Nat.sub_diag by lia. simpl.
    split.
    + rewrite queued_middle. simpl. by rewrite !Forall_app.
    + rewrite queued_middle. simpl. rewrite !fmap_app.
      apply NoDup_app. split_and!; [done | | done].
      intros i Hi Hi'. apply (Hdisj_pre i Hi).
      simpl. apply elem_of_cons. by right.
    + apply Forall_app. split; [| apply Forall_cons; split].
      * apply Forall_forall. intros t' Ht'.
        eapply task_ok_frame;
          [| by eapply (proj1 (Forall_forall _ _) Hm_pre)].
        intros q Hq st.
        assert (Hqid : id q ∈ id <$> queued pre).
        { apply list_elem_of_fmap_2. by eapply queued_elem. }
        pose proof (Hdisj_pre _ Hqid) as Hout. apply Hframe.
        -- intros E. apply Hout. rewrite E. simpl. apply elem_of_cons. by left.
        -- intros Hin. apply Hout. simpl. apply elem_of_cons. right.
           apply elem_of_app. by left.
      * unfold task_ok. simpl. destruct rest as [|next rest']; [done |].
        split; [by apply Hproc |].
        apply Forall_cons in Hrest as [_ Hrest'].
        rewrite fmap_cons in Hn_rest. apply NoDup_cons in Hn_rest as [Hnext_notin _].
        apply Forall_forall. intros r Hr.
        apply Hmarks2.
        -- intros next' [= <-] E. apply Hnext_notin. rewrite <- E.
           by apply list_elem_of_fmap_2.
        -- apply Hmarks1.
           ++ apply Hrest_ne. apply elem_of_cons. by right.
           ++ by eapply (proj1 (Forall_forall _ _) Hrest').
      * apply Forall_forall. intros t' Ht'.
        eapply task_ok_frame;
          [| by eapply (proj1 (Forall_forall _ _) Hm_post)].
        intros q Hq st.
        assert (Hqid : id q ∈ id <$> queued post).
        { apply list_elem_of_fmap_2. by eapply queued_elem. }
        apply Hframe.
        -- intros E. apply Hitem_notin. rewrite <- E. apply elem_of_app. by right.
        -- intros Hin. by apply (Hdisj_rest _ Hin).
Qed.

Lemma removeFile_inv (i : string) (s : App) :
  lifecycle_inv s → lifecycle_inv (removeFile i s).
Proof.
  intros [Hh Ht]. unfold removeFile. split.
  - apply remove_history; [done |]. apply sublist_filter.
  - simpl. eapply remove_tasks; [| done].
    intros f Hf. by apply list_elem_of_filter in Hf as [_ ?].
Qed.

Lemma clearFiles_inv (s : App) :
  lifecycle_inv s → lifecycle_inv (clearFiles s).
Proof.
  intros [Hh Ht]. unfold clearFiles. split.
  - apply remove_history; [done |]. apply sublist_nil_l.
  - simpl. eapply remove_tasks; [| done].
    intros f Hf. by apply elem_of_nil in Hf.
Qed.

Lemma setOptions_inv (o : MergeOptions) (s : App) :
  lifecycle_inv s → lifecycle_inv (setOptions o s).
Proof. intros [[Hc Hs Hd] Ht]. split; [by split | done]. Qed.

Lemma handle_inv (e : Event) (s : App) :
  lifecycle_inv s → lifecycle_inv (handle e s).
Proof.
  destruct e as [selected | t | i | | o]; simpl.
  - apply handleFileUpload_inv.
  - apply resume_inv.
  - apply removeFile_inv.
  - apply clearFiles_inv.
  - apply setOptions_inv.
Qed.

Lemma initial_inv (today : string) : lifecycle_inv (initial today).
Proof.
  split; split; simpl; first [done | by apply NoDup_nil_2 | by constructor].
Qed.

Lemma run_inv (es : list Event) (s : App) :
  lifecycle_inv s → lifecycle_inv (run es s).
Proof.
  revert s. induction es as [|e es IH]; intros s Hinv; [done |].
  simpl. by apply IH, handle_inv.
Qed.

End lifecycle.

(** ** Lifecycle of an entry *)

Lemma entry_step_status (f f' : FileItem) :
  entry_step f f' →
  id f' = id f ∧
  (f' = f ∨
   (status f = pending ∧ status f' = processing) ∨
   (status f = processing ∧ (status f' = done ∨ status f' = error))).
Proof.
  intros Hstep. destruct Hstep; (split; [done |]); auto.
Qed.

Lemma entry_step_terminal (f f' : FileItem) :
  entry_step f f' → status f = done ∨ status f = error → f' = f.
Proof.
  intros Hstep Hterminal. destruct Hstep; [done | | |];
    destruct Hterminal; congruence.
Qed.

(** In a session whose identifiers never repeat, every entry enters
    the registry with status [pending], and every later write of the
    registry leaves each entry as it is, removes it, or moves it from
    [pending] to [processing] or from [processing] to [done] or [error];
    so an entry that is [done] or [error] is never changed again. *)
Theorem entry_lifecycle `{SheetJS} `{MathRandom} (es : list Event)
    (today : string) :
  (∀ j k, random_id j = random_id k → j = k) →
  chain registry_step [] (observed (run es (initial today))) ∧
  shown (run es (initial today)) = files (run es (initial today)) ∧
  (∀ selected d, Forall (λ it, status it = pending) (newItems selected d)) ∧
  (∀ f f', entry_step f f' →
     id f' = id f ∧
     (f' = f ∨
      (status f = pending ∧ status f' = processing) ∨
      (status f = processing ∧ (status f' = done ∨ status f' = error)))) ∧
  (∀ f f', entry_step f f' → status f = done ∨ status f = error → f' = f).
Proof.
  intros Hinj.
  destruct (run_inv Hinj es (initial today) (initial_inv today))
    as [[Hc Hs _] _].
  split_and!; [done | done | | |].
  - apply newItems_pending.
  - apply entry_step_status.
  - apply entry_step_terminal.
Qed.

Lemma counting_ids_never_repeat (j k : nat) :
  @random_id CountingIds j = @random_id CountingIds k → j = k.
Proof. simpl. apply pretty_nat_inj. Qed.

Lemma entry_lifecycle_witness :
  chain registry_step []
    (observed (@run BlankCodec CountingIds
                 [FilesSelected [xlsx_file "a.xlsx"; xlsx_file "c.csv"];
                  ReadSettled 0;
                  FilesSelected [xlsx_file "b.xlsx"];
                  ReadSettled 1; RemoveFile "0"; ReadSettled 0; ClearFiles]
                 (initial "2026-01-01"))).
Proof.
  exact (proj1 (@entry_lifecycle BlankCodec CountingIds _ _
                  counting_ids_never_repeat)).
Defined.

(** The statuses shown in that session. *)
Example statuses_shown :
  fmap (M := list) (fmap (M := list) (λ f, (id f, status f)))
    (observed (@run BlankCodec CountingIds
                 [FilesSelected [xlsx_file "a.xlsx"; xlsx_file "c.csv"];
                  ReadSettled 0;
                  FilesSelected [xlsx_file "b.xlsx"];
                  ReadSettled 1; RemoveFile "0"; ReadSettled 0; ClearFiles]
                 (initial "2026-01-01")))
  = [ [("0", pending); ("1", pending)];
      [("0", processing); ("1", pending)];
      [("0", done); ("1", pending)];
      [("0", done); ("1", processing)];
      [("0", done); ("1", processing); ("2", pending)];
      [("0", done); ("1", processing); ("2", processing)];
      [("0", done); ("1", processing); ("2", done)];
      [("1", processing); ("2", done)];
      [("1", done); ("2", done)];
      [] ].
Proof. by vm_compute. Qed.

(** C8. When [Math.random] gives a later file the identifier of an
    earlier entry, the updates by identifier that process the later file
    reach the earlier entry as well: the entry of [a.xlsx], which was
    [done], is shown [processing] again with the start of the read of
    [b.xlsx], and when that read settles it is marked [done] a second
    time. *)
Theorem entry_lifecycle_repeated_id :
  @random_id ConstantIds 0 = @random_id ConstantIds 1 ∧
  fmap (M := list) (fmap (M := list) (λ f, (id f, name f, status f)))
    (observed (@run BlankCodec ConstantIds
                 [FilesSelected [xlsx_file "a.xlsx"]; ReadSettled 0;
                  FilesSelected [xlsx_file "b.xlsx"]; ReadSettled 1]
                 (initial "2026-01-01")))
  = [ [("", "a.xlsx", pending)];
      [("", "a.xlsx", processing)];
      [("", "a.xlsx", done)];
      [("", "a.xlsx", done); ("", "b.xlsx", pending)];
      [("", "a.xlsx", processing); ("", "b.xlsx", processing)];
      [("", "a.xlsx", done); ("", "b.xlsx", done)] ].
Proof. split; by vm_compute. Qed.

(** ** Accepted extensions *)

Lemma accepted_spec (f : File) :
  accepted f = true ↔ accepted_suffix (file_name f).
Proof.
  unfold accepted, accepted_suffix.
  rewrite !orb_true_iff, !endsWith_spec. split.
  - intros [[[pre Hn] | [pre Hn]] | [pre Hn]]; exists pre; auto.
  - intros [pre [Hn | [Hn | Hn]]]; [left; left | left; right | right];
      by exists pre.
Qed.

Lemma newItems_files `{MathRandom} (selected : list File) (d : nat) :
  file <$> newItems selected d = filter accepted selected.
Proof.
  unfold newItems. apply list_eq. intros k.
  rewrite list_lookup_fmap, list_lookup_imap.
  by destruct (filter accepted selected !! k).
Qed.

Lemma newItems_names `{MathRandom} (selected : list File) (d : nat) :
  Forall (λ it, status it = pending ∧ name it = file_name (file it) ∧
                accepted_suffix (name it))
         (newItems selected d).
Proof.
  apply Forall_forall. intros it Hit.
  destruct (newItems_elem selected d it Hit) as (k & f & -> & _ & _ & Hacc).
  split_and!; [done | done |]. simpl. apply accepted_spec.
  by apply Is_true_true.
Qed.

Lemma setFiles_names (upd : list FileItem → list FileItem) (s : App) :
  names_accepted s →
  Forall (λ it, accepted_suffix (name it)) (upd (files s)) →
  names_accepted (setFiles upd s).
Proof.
  intros [Hf Ho] Hupd. split; simpl; [done |].
  apply Forall_app. split; [done |]. by apply Forall_singleton.
Qed.

Lemma update_where_names (i : string) (g : FileItem → FileItem)
    (s : App) :
  (∀ f, name (g f) = name f) →
  names_accepted s → names_accepted (setFiles (update_where i g) s).
Proof.
  intros Hname Hacc. apply setFiles_names; [done |].
  unfold update_where. apply Forall_fmap. destruct Hacc as [Hf _].
  eapply Forall_impl; [exact Hf |]. intros f Hok. simpl.
  destruct (decide (id f = i)); [by rewrite Hname | done].
Qed.

Lemma begin_next_names (items : list FileItem) (s : App) :
  names_accepted s → names_accepted (begin_next items s).
Proof.
  intros Hacc. destruct items as [|item rest]; [done |].
  by apply (update_where_names (id item) with_processing).
Qed.

Lemma handle_names `{SheetJS} `{MathRandom} (e : Event) (s : App) :
  names_accepted s → names_accepted (handle e s).
Proof.
  intros Hacc. destruct e as [selected | t | i | | o]; simpl.
  - unfold handleFileUpload, processFiles.
    assert (Hreg : names_accepted
                     (register (newItems selected (draws s)) s)).
    { unfold register. destruct Hacc as [Hf Ho].
      assert (Hnew : Forall (λ it, accepted_suffix (name it))
                       (files s ++ newItems selected (draws s))).
      { apply Forall_app. split; [done |].
        eapply Forall_impl; [apply newItems_names |]. by intros it (_ & _ & ?). }
      split; simpl; [done |].
      apply Forall_app. split; [done |]. by apply Forall_singleton. }
    apply (begin_next_names (newItems selected (draws s))) in Hreg.
    destruct Hreg as [Hf Ho]. by split.
  - unfold resume. destruct (tasks s !! t) as [T|]; [| done].
    destruct (queue T) as [|item rest]; [done |].
    destruct (finish_shape item (readExcelFile item (task_sheetIndex T)) s)
      as (g & h & _ & Hgname & _ & ->).
    assert (Hfin : names_accepted
                     (setFiles (update_where (id item) g) (set_store h s))).
    { apply update_where_names; [done |]. destruct Hacc as [Hf Ho]. by split. }
    apply (begin_next_names rest) in Hfin. destruct Hfin as [Hf Ho]. by split.
  - unfold removeFile. apply setFiles_names; [done |].
    destruct Hacc as [Hf _]. apply Forall_forall. intros f Hin.
    apply list_elem_of_filter in Hin as [_ Hin].
    by eapply (proj1 (Forall_forall _ _) Hf).
  - unfold clearFiles. apply setFiles_names; [done |]. by apply Forall_nil.
  - destruct Hacc as [Hf Ho]. by split.
Qed.

Lemma run_names `{SheetJS} `{MathRandom} (es : list Event) (s : App) :
  names_accepted s → names_accepted (run es s).
Proof.
  revert s. induction es as [|e es IH]; intros s Hacc; [done |].
  simpl. by apply IH, handle_names.
Qed.

Lemma mark_processing_file (i : string) (l : list FileItem) :
  file <$> mark_processing i l = file <$> l.
Proof.
  unfold mark_processing. rewrite <- list_fmap_compose.
  apply list_fmap_ext. intros k f _. simpl. by destruct (decide (id f = i)).
Qed.

Lemma mark_processing_name (i : string) (l : list FileItem) :
  name <$> mark_processing i l = name <$> l.
Proof.
  unfold mark_processing. rewrite <- list_fmap_compose.
  apply list_fmap_ext. intros k f _. simpl. by destruct (decide (id f = i)).
Qed.

Lemma handleFileUpload_files `{SheetJS} `{MathRandom} (selected : list File)
    (s : App) :
  files (handle (FilesSelected selected) s)
  = match newItems selected (draws s) with
    | [] => files s
    | item :: _ =>
        mark_processing (id item) (files s ++ newItems selected (draws s))
    end.
Proof.
  simpl. unfold handleFileUpload, processFiles, register.
  destruct (newItems selected (draws s)) as [|item rest]; simpl.
  - by rewrite app_nil_r.
  - done.
Qed.

(** C6. A selection of files leaves the registry with the entries it
    had, followed by one entry for each file of the batch whose name
    ends in [.xlsx], [.xls] or [.csv], compared as written, in the order
    of the batch, and with no entry for any other file; the new entries
    are appended with status [pending], before the first of them is
    marked for its read; and in every state of a session every entry has
    such a name. *)
Theorem handleFileUpload_accepts `{SheetJS} `{MathRandom}
    (selected : list File) (s : App) :
  file <$> files (handle (FilesSelected selected) s)
    = (file <$> files s) ++ filter accepted selected ∧
  name <$> files (handle (FilesSelected selected) s)
    = (name <$> files s) ++ (file_name <$> filter accepted selected) ∧
  files (handle (FilesSelected selected) s)
    = match newItems selected (draws s) with
      | [] => files s
      | item :: _ =>
          mark_processing (id item) (files s ++ newItems selected (draws s))
      end ∧
  observed (handle (FilesSelected selected) s)
    = observed s ++ [files s ++ newItems selected (draws s)] ++
      match newItems selected (draws s) with
      | [] => []
      | item :: _ =>
          [mark_processing (id item) (files s ++ newItems selected (draws s))]
      end ∧
  (∀ f, f ∈ selected → ¬ accepted_suffix (file_name f) →
        f ∉ file <$> files s →
        f ∉ file <$> files (handle (FilesSelected selected) s)) ∧
  files (register (newItems selected (draws s)) s)
    = files s ++ newItems selected (draws s) ∧
  file <$> newItems selected (draws s) = filter accepted selected ∧
  Forall (λ it, status it = pending ∧ name it = file_name (file it) ∧
                accepted_suffix (name it))
         (newItems selected (draws s)) ∧
  (∀ f, accepted f = true ↔ accepted_suffix (file_name f)) ∧
  (∀ f, f ∈ selected → ¬ accepted_suffix (file_name f) →
        f ∉ file <$> newItems selected (draws s)) ∧
  (∀ es today,
     Forall (λ it, accepted_suffix (name it))
            (files (run es (initial today))) ∧
     Forall (Forall (λ it, accepted_suffix (name it)))
            (observed (run es (initial today)))).
Proof.
  assert (Hfile : file <$> files (handle (FilesSelected selected) s)
                  = (file <$> files s) ++ filter accepted selected).
  { rewrite handleFileUpload_files, <- (newItems_files selected (draws s)).
    destruct (newItems selected (draws s)) as [|item rest] eqn:E.
    - by rewrite app_nil_r.
    - by rewrite mark_processing_file, fmap_app. }
  split_and!.
  - exact Hfile.
  - rewrite handleFileUpload_files.
    assert (Hnames : name <$> newItems selected (draws s)
                     = file_name <$> filter accepted selected).
    { rewrite <- (newItems_files selected (draws s)), <- list_fmap_compose.
      apply Forall_fmap_ext_1.
      eapply Forall_impl; [apply newItems_names |]. by intros it (_ & ? & _). }
    rewrite <- Hnames.
    destruct (newItems selected (draws s)) as [|item rest] eqn:E.
    + by rewrite app_nil_r.
    + by rewrite mark_processing_name, fmap_app.
  - apply handleFileUpload_files.
  - simpl. unfold handleFileUpload, processFiles, register.
    destruct (newItems selected (draws s)) as [|item rest]; simpl.
    + done.
    + by rewrite <- app_assoc.
  - intros f Hf Hno Hold. rewrite Hfile. intros Hin.
    apply elem_of_app in Hin as [Hin|Hin]; [done |].
    apply list_elem_of_filter in Hin as [Hacc _].
    apply Hno, accepted_spec. by apply Is_true_true.
  - done.
  - apply newItems_files.
  - apply newItems_names.
  - apply accepted_spec.
  - intros f Hf Hno Hin. rewrite newItems_files in Hin.
    apply list_elem_of_filter in Hin as [Hacc _].
    apply Hno, accepted_spec. by apply Is_true_true.
  - intros es today. apply run_names. split; simpl; by constructor.
Qed.

(** A batch of four files of which two are accepted. *)
Example upload_registers :
  (λ f, (name f, status f))
    <$> files (@handle BlankCodec CountingIds
                 (FilesSelected [xlsx_file "a.xlsx"; xlsx_file "notes.txt";
                                 xlsx_file "b.XLSX"; xlsx_file "c.csv"])
                 (initial "2026-01-01"))
  = [("a.xlsx", processing); ("c.csv", pending)].
Proof. by vm_compute. Qed.

(** The extension is compared as written. *)
Example extension_case :
  accepted (xlsx_file "a.xlsx") = true ∧ accepted (xlsx_file "b.xls") = true ∧
  accepted (xlsx_file "c.csv") = true ∧ accepted (xlsx_file "d.XLSX") = false ∧
  accepted (xlsx_file "e.txt") = false ∧ accepted (xlsx_file "xlsx") = false.
Proof. by vm_compute. Qed.

(* ===================================================================== *)
(** * Further properties *)
(* ===================================================================== *)

(** ** Grouping by name *)

Lemma group_push_lookup (groups : gmap string (list FileItem))
    (file : FileItem) (n : string) :
  group_push groups file !! n
  = if decide (n = name file)
    then Some (default [] (groups !! n) ++ [file])
    else groups !! n.
Proof.
  unfold group_push. destruct (decide (n = name file)) as [->|Hne].
  - rewrite lookup_alter_eq.
    destruct (groups !! name file) as [g|] eqn:Hg.
    + by rewrite Hg.
    + by rewrite lookup_insert_eq.
  - rewrite lookup_alter_ne by done.
    destruct (groups !! name file); [done |]. by rewrite lookup_insert_ne.
Qed.

Lemma group_of_snoc (n : string) (l : list FileItem) (file : FileItem) :
  group_of n (l ++ [file])
  = if decide (n = name file)
    then Some (default [] (group_of n l) ++ [file])
    else group_of n l.
Proof.
  unfold group_of. rewrite filter_app.
  destruct (decide (n = name file)) as [->|Hne].
  - rewrite (filter_cons_True (λ f, name f = name file) file []) by done.
    rewrite filter_nil.
    destruct (filter (λ f, name f = name file) l) as [|x g]; simpl.
    + done.
    + done.
  - rewrite (filter_cons_False (λ f, name f = n) file []) by congruence.
    by rewrite filter_nil, app_nil_r.
Qed.

Lemma foldl_group_push (l l0 : list FileItem)
    (groups : gmap string (list FileItem)) :
  (∀ n, groups !! n = group_of n l0) →
  ∀ n, foldl group_push groups l !! n = group_of n (l0 ++ l).
Proof.
  revert l0 groups. induction l as [|file l IH]; intros l0 groups Hg n.
  - simpl. by rewrite app_nil_r.
  - simpl. rewrite (IH (l0 ++ [file])); [by rewrite <- app_assoc |].
    intros m. rewrite group_push_lookup, group_of_snoc. by rewrite Hg.
Qed.

(** X1. [groupedFiles] has one group for each name that occurs among the
    filtered entries and no other; the group of a name holds exactly the
    filtered entries of that name, in their order, so it is never empty
    and every filtered entry is in the group of its name. *)
Theorem groupedFiles_groups `{JsString} (files : list FileItem)
    (options : MergeOptions) :
  (∀ n, groupedFiles files options !! n
        = group_of n (filteredFiles files options)) ∧
  (∀ n g, groupedFiles files options !! n = Some g →
     g ≠ [] ∧ g `sublist_of` filteredFiles files options ∧
     ∀ f, f ∈ g ↔ f ∈ filteredFiles files options ∧ name f = n) ∧
  (∀ f, f ∈ filteredFiles files options →
     ∃ g, groupedFiles files options !! name f = Some g ∧ f ∈ g).
Proof.
  assert (Hlookup : ∀ n, groupedFiles files options !! n
                         = group_of n (filteredFiles files options)).
  { intros n. unfold groupedFiles.
    by rewrite (foldl_group_push _ [] ∅). }
  split_and!; [done | |].
  - intros n g. rewrite Hlookup. unfold group_of.
    case_decide as Hnil; [done |]. intros [= <-]. split_and!; [done | |].
    + apply sublist_filter.
    + intros f. by rewrite list_elem_of_filter, (comm and).
  - intros f Hf. rewrite Hlookup. unfold group_of.
    assert (Hin : f ∈ filter (λ f0, name f0 = name f)
                             (filteredFiles files options)).
    { by apply list_elem_of_filter. }
    rewrite decide_False; [by eexists |].
    intros E. rewrite E in Hin. by apply elem_of_nil in Hin.
Qed.

(** ** Keyword filter: composition *)

(** X2. Filtering by the same keyword twice is filtering once; filtering
    a concatenation is concatenating the filtered parts; and filtering
    commutes with keeping the entries of a given status and with
    removing the entries of a given identifier. *)
Theorem filteredFiles_compose `{JsString} (files more : list FileItem)
    (options : MergeOptions) (st : Status) (i : string) :
  filteredFiles (filteredFiles files options) options
    = filteredFiles files options ∧
  filteredFiles (files ++ more) options
    = filteredFiles files options ++ filteredFiles more options ∧
  filteredFiles (filter (λ f, status f = st) files) options
    = filter (λ f, status f = st) (filteredFiles files options) ∧
  filteredFiles (filter (λ f, id f ≠ i) files) options
    = filter (λ f, id f ≠ i) (filteredFiles files options).
Proof.
  unfold filteredFiles. case_decide as Hkw; [done |].
  split_and!.
  - by apply list_filter_filter_l.
  - apply filter_app.
  - rewrite !list_filter_filter. apply list_filter_iff. intros f. tauto.
  - rewrite !list_filter_filter. apply list_filter_iff. intros f. tauto.
Qed.

(** ** Download name: composition *)

(** X3. The name that [downloadBlob] gives always ends in [.xlsx], and
    giving a name to [downloadBlob] a second time changes nothing; the
    test of the suffix is exact, so an upper-case [.XLSX] gets the suffix
    appended. *)
Theorem downloadBlob_name_idempotent (fileName : string) :
  endsWith (downloadBlob_name fileName) ".xlsx" = true ∧
  downloadBlob_name (downloadBlob_name fileName) = downloadBlob_name fileName ∧
  (∃ pre, downloadBlob_name fileName = pre +:+ ".xlsx") ∧
  downloadBlob_name "a.XLSX" = "a.XLSX.xlsx".
Proof.
  destruct (downloadBlob_name_spec fileName) as (_ & _ & Hends).
  split_and!; [done | | | done].
  - by apply (downloadBlob_name_spec (downloadBlob_name fileName)).
  - by apply endsWith_spec.
Qed.

(** ** Merge: which entries count, and merging again *)

Lemma participants_idempotent (files : list FileItem) :
  participants (participants files) = participants files.
Proof. unfold participants. by apply list_filter_filter_l. Qed.

Lemma collectRows_participants (options : MergeOptions)
    (files : list FileItem) (allData : list loc) (h : heap) :
  collectRows options files allData h
  = collectRows options (participants files) allData h.
Proof.
  revert allData h. induction files as [|f files IH]; intros allData h.
  - done.
  - rewrite participants_cons. simpl. destruct (skipped f) eqn:E.
    + apply IH.
    + simpl. rewrite E. unfold St_bind.
      destruct (array_map _ _ h) as [h1 processedData]. apply IH.
Qed.

(** X4. Only the entries with status [done] and a table count in a
    merge: the result and the store are those of merging these entries
    alone, so adding or dropping any other entry, at any place, changes
    nothing. *)
Theorem mergeFiles_only_participants `{SheetJS} (files : list FileItem)
    (options : MergeOptions) (h : heap) :
  mergeFiles files options h = mergeFiles (participants files) options h ∧
  (∀ before f after,
     files = before ++ f :: after →
     status f ≠ done ∨ data f = None →
     mergeFiles files options h = mergeFiles (before ++ after) options h).
Proof.
  assert (Hp : ∀ fs, mergeFiles fs options h
                     = mergeFiles (participants fs) options h).
  { intros fs. unfold mergeFiles, St_bind.
    by rewrite collectRows_participants. }
  split; [apply Hp |].
  intros before f after -> Hout. rewrite Hp, (Hp (before ++ after)).
  f_equal. unfold participants. rewrite !filter_app. f_equal.
  rewrite filter_cons_False; [done |].
  intros [Hs Hd]. destruct Hout as [Hout|Hout]; [done |].
  rewrite Hout in Hd. by apply is_Some_None in Hd.
Qed.

(** X5. A merge leaves the store fit for the next one: the row
    references of the entries still point into it, and merging the same
    entries again, with the same or other options, gives the result that
    it would have given before. *)
Theorem mergeFiles_again `{SheetJS} (files : list FileItem)
    (options options' : MergeOptions) (h : heap) :
  refs_in_store h files →
  refs_in_store (mergeFiles files options h).1 files ∧
  (mergeFiles files options' (mergeFiles files options h).1).2
    = (mergeFiles files options' h).2.
Proof.
  intros Hrefs. rewrite (mergeFiles_run options) by done. simpl.
  split; [by apply refs_in_store_app |].
  rewrite !mergeFiles_run by (done || by apply refs_in_store_app).
  simpl. by rewrite emitted_rows_app.
Qed.

Lemma mergeFiles_again_witness :
  (@mergeFiles BlankCodec two_entries unnamed_options
     (@mergeFiles BlankCodec two_entries default_options eight_rows).1).2
  = (@mergeFiles BlankCodec two_entries unnamed_options eight_rows).2.
Proof.
  exact (proj2 (@mergeFiles_again BlankCodec two_entries default_options
                  unnamed_options eight_rows two_entries_in_store)).
Defined.

(** ** Decoder: when it resolves, and with what it rejects *)

(** X6. [readExcelFile] resolves exactly when the file was read with a
    result, the codec read a workbook from it, the sheet index is not
    negative and names a sheet whose name is not empty, and the sheet
    converts to rows; the headers are then the keys of the first row, or
    none. It rejects only with the failure of the read, the missing
    result, an error of the codec, or the sheet-not-found error. *)
Theorem readExcelFile_outcomes `{SheetJS} (fileItem : FileItem) (i : Z) :
  (∀ dec, readExcelFile fileItem i = Resolved dec ↔
     ∃ buffer workbook sheetName,
       file_read (file fileItem) = Loaded (Some buffer) ∧
       XLSX_read buffer = Normal workbook ∧
       (0 ≤ i)%Z ∧
       SheetNames workbook !! Z.to_nat i = Some sheetName ∧
       sheetName ≠ "" ∧
       sheet_to_json (Sheets workbook !! sheetName) = Normal (decoded_data dec) ∧
       decoded_headers dec = match decoded_data dec with
                             | first :: _ => Object_keys first
                             | [] => []
                             end) ∧
  (∀ e, readExcelFile fileItem i = Rejected e →
     e = Error "File reading failed." ∨
     e = Error "No data read from file." ∨
     (∃ buffer, XLSX_read buffer = Throw e) ∨
     (∃ workbook : WorkBook WorkSheet,
        e = sheet_not_found i (SheetNames workbook)) ∨
     (∃ worksheet, sheet_to_json worksheet = Throw e)).
Proof.
  unfold readExcelFile, onload, array_index. split.
  - intros dec. split.
    + destruct (file_read (file fileItem)) as [[buffer|]|]; try done.
      simpl. destruct (XLSX_read buffer) as [workbook|] eqn:Hbook; try done.
      simpl. destruct (decide (i < 0)%Z) as [|Hi]; [done |].
      destruct (SheetNames workbook !! Z.to_nat i) as [sheetName|] eqn:Hname;
        [| done].
      destruct (decide (sheetName = "")) as [|Hne]; [done |].
      destruct (sheet_to_json _) as [jsonData|] eqn:Hjson; [| done].
      simpl. intros [= <-]. exists buffer, workbook, sheetName.
      split_and!; try done. lia.
    + intros (buffer & workbook & sheetName & -> & Hbook & Hi & Hname
              & Hne & Hjson & Hheaders).
      simpl. rewrite Hbook. simpl.
      rewrite decide_False by lia. rewrite Hname, decide_False by done.
      rewrite Hjson. simpl. destruct dec as [d hs]. simpl in *. by subst.
  - intros e.
    destruct (file_read (file fileItem)) as [[buffer|]|]; simpl.
    + destruct (XLSX_read buffer) as [workbook|e'] eqn:Hbook; simpl.
      * destruct (decide (i < 0)%Z) as [|Hi].
        { intros [= <-]. do 3 right. left. by exists workbook. }
        destruct (SheetNames workbook !! Z.to_nat i) as [sheetName|].
        -- destruct (decide (sheetName = "")) as [|Hne].
           { intros [= <-]. do 3 right. left. by exists workbook. }
           destruct (sheet_to_json _) as [jsonData|e''] eqn:Hjson; [done |].
           simpl. intros [= <-]. do 4 right. by eexists.
        -- intros [= <-]. do 3 right. left. by exists workbook.
      * intros [= <-]. do 2 right. left. by exists buffer.
    + intros [= <-]. by right; left.
    + intros [= <-]. by left.
Qed.

(** ** Schema suggestion: the reply, and the order of the fallback *)

(** X7. With no header list [getSmartMapping] resolves with the empty
    list whatever the remote model is, so without a call. With header
    lists, a client that was constructed and a reply that parses to an
    object whose [unifiedHeaders] is an array, it resolves with that
    array as it is, also when the array is empty; a reply that parses to
    [null] gives the union of the headers. *)
Theorem getSmartMapping_reply `{GenAI} (fileHeaders : list (list string))
    (ai : Client) (text : option string) (result : Json) :
  fileHeaders ≠ [] →
  new_GoogleGenAI = Normal ai →
  generateContent ai (prompt_of fileHeaders) = Resolved text →
  JSON_parse (str_or (default "" text) "{}") = Normal result →
  (∀ G : GenAI, @getSmartMapping G [] = Resolved (JArr [])) ∧
  (∀ before items after,
     result = JObj (before ++ ("unifiedHeaders", JArr items) :: after) →
     "unifiedHeaders" ∉ before.*1 →
     getSmartMapping fileHeaders = Resolved (JArr items)) ∧
  (result = JNull →
     getSmartMapping fileHeaders
       = Resolved (JArr (JStr <$> union_of_headers fileHeaders))).
Proof.
  intros Hne Hclient Hreply Hparse. split_and!; [done | |].
  - intros before items after -> Hfirst.
    unfold getSmartMapping. rewrite Hclient. unfold askModel.
    rewrite decide_False by (destruct fileHeaders; [done | simpl; lia]).
    rewrite Hreply.
    replace (match text with Some t => str_or t "{}" | None => "{}" end)
      with (str_or (default "" text) "{}") by (by destruct text).
    rewrite Hparse. simpl.
    assert (Hfind : list_find (λ kv : string * Json, kv.1 = "unifiedHeaders")
                      (before ++ ("unifiedHeaders", JArr items) :: after)
                    = Some (length before, ("unifiedHeaders", JArr items))).
    { apply list_find_Some. split_and!.
      - by rewrite lookup_app_r, Nat.sub_diag by lia.
      - done.
      - intros j kv Hj Hlt Hkey. apply Hfirst.
        rewrite lookup_app_l in Hj by done.
        apply list_elem_of_fmap. exists kv. split; [done |].
        by eapply list_elem_of_lookup_2. }
    by rewrite Hfind.
  - intros ->. unfold getSmartMapping. rewrite Hclient. unfold askModel.
    rewrite decide_False by (destruct fileHeaders; [done | simpl; lia]).
    rewrite Hreply.
    replace (match text with Some t => str_or t "{}" | None => "{}" end)
      with (str_or (default "" text) "{}") by (by destruct text).
    by rewrite Hparse.
Qed.

Lemma getSmartMapping_reply_witness :
  @getSmartMapping Answering [["User ID"; "Name"]; ["Member ID"; "Name"]]
  = Resolved (JArr [JStr "Name"]).
Proof.
  exact (proj1 (proj2 (@getSmartMapping_reply Answering
                         [["User ID"; "Name"]; ["Member ID"; "Name"]]
                         tt (Some one_header_text)
                         (JObj [("unifiedHeaders", JArr [JStr "Name"])])
                         ltac:(done) eq_refl eq_refl eq_refl))
           [] [JStr "Name"] [] eq_refl ltac:(apply not_elem_of_nil)).
Defined.

Lemma Set_add_prefix (allHeaders : list string) (col : string) :
  allHeaders `prefix_of` Set_add allHeaders col.
Proof. unfold Set_add. case_decide; [done | by apply prefix_app_r]. Qed.

Lemma Set_add_all_prefix (h allHeaders : list string) :
  allHeaders `prefix_of` foldl Set_add allHeaders h.
Proof.
  revert allHeaders. induction h as [|col h IH]; intros allHeaders; [done |].
  simpl. etrans; [apply Set_add_prefix | apply IH].
Qed.

Lemma union_from_prefix (fileHeaders : list (list string))
    (allHeaders : list string) :
  allHeaders
    `prefix_of` foldl (λ acc h, foldl Set_add acc h) allHeaders fileHeaders.
Proof.
  revert allHeaders.
  induction fileHeaders as [|h fileHeaders IH]; intros allHeaders; [done |].
  simpl. etrans; [apply Set_add_all_prefix | apply IH].
Qed.

Lemma Set_add_all_fresh (h allHeaders : list string) :
  NoDup (allHeaders ++ h) → foldl Set_add allHeaders h = allHeaders ++ h.
Proof.
  revert allHeaders. induction h as [|col h IH]; intros allHeaders Hnd; simpl.
  - by rewrite app_nil_r.
  - assert (Hnew : col ∉ allHeaders).
    { apply NoDup_app in Hnd as (_ & Hdisj & _). intros Hin.
      apply (Hdisj col Hin). apply elem_of_cons. by left. }
    unfold Set_add at 2. rewrite decide_False by done.
    rewrite IH; [by rewrite <- app_assoc |]. by rewrite <- app_assoc.
Qed.

(** X8. The fallback lists the headers in the order in which they are
    first seen: the union of the first lists is a prefix of the union of
    all of them, and when the headers of the first file do not repeat
    they come first, in their order. *)
Theorem union_of_headers_order (first : list string)
    (fileHeaders more : list (list string)) :
  union_of_headers fileHeaders
    `prefix_of` union_of_headers (fileHeaders ++ more) ∧
  (NoDup first → first `prefix_of` union_of_headers (first :: more)) ∧
  (NoDup first → union_of_headers [first] = first).
Proof.
  unfold union_of_headers. split_and!.
  - rewrite foldl_app. apply union_from_prefix.
  - intros Hnd. simpl. rewrite (Set_add_all_fresh first []) by done.
    apply union_from_prefix.
  - intros Hnd. simpl. by rewrite (Set_add_all_fresh first []).
Qed.

(** ** Registry: what every entry satisfies *)

Lemma update_where_Forall (P : FileItem → Prop) (i : string)
    (g : FileItem → FileItem) (prev : list FileItem) :
  (∀ f, P f → P (g f)) → Forall P prev → Forall P (update_where i g prev).
Proof.
  intros Hg Hall. unfold update_where. apply Forall_fmap.
  eapply Forall_impl; [exact Hall |]. intros f Hf. simpl.
  destruct (decide (id f = i)); [by apply Hg | done].
Qed.

Section entries.
Context `{SheetJS} `{MathRandom}.
Variable P : FileItem → Prop.
Hypothesis P_new : ∀ i f, P (new_item i f).
Hypothesis P_processing : ∀ f, P f → P (with_processing f).
Hypothesis P_done : ∀ f d hs, P f → P (with_done f d hs).
Hypothesis P_error : ∀ f msg, P f → P (with_error f msg).

Lemma begin_next_Forall (items : list FileItem) (s : App) :
  Forall P (files s) → Forall P (files (begin_next items s)).
Proof.
  intros Hall. destruct items as [|item rest]; [done |]. simpl.
  by apply (update_where_Forall P (id item) with_processing).
Qed.

Lemma finish_Forall (item : FileItem) (r : promise Decoded) (s : App) :
  Forall P (files s) → Forall P (files (finish item r s)).
Proof.
  intros Hall. destruct r as [dec|err]; simpl.
  - apply (update_where_Forall P (id item) (λ f, with_done f _ _)); [| done].
    intros f. apply P_done.
  - apply (update_where_Forall P (id item) (λ f, with_error f _)); [| done].
    intros f. apply P_error.
Qed.

Lemma handle_Forall (e : Event) (s : App) :
  Forall P (files s) → Forall P (files (handle e s)).
Proof.
  intros Hall. destruct e as [selected | t | i | | o]; simpl.
  - unfold handleFileUpload, processFiles. simpl.
    apply begin_next_Forall. unfold register. simpl.
    apply Forall_app. split; [done |].
    apply Forall_forall. intros it Hit.
    by destruct (newItems_elem selected (draws s) it Hit) as (k & f & -> & _).
  - unfold resume. destruct (tasks s !! t) as [T|]; [| done].
    destruct (queue T) as [|item rest]; [done |]. simpl.
    by apply begin_next_Forall, finish_Forall.
  - apply Forall_forall. intros f Hf.
    apply list_elem_of_filter in Hf as [_ Hf].
    by eapply (proj1 (Forall_forall _ _) Hall).
  - by apply Forall_nil.
  - done.
Qed.

Lemma run_Forall (es : list Event) (s : App) :
  Forall P (files s) → Forall P (files (run es s)).
Proof.
  revert s. induction es as [|e es IH]; intros s Hall; [done |].
  simpl. by apply IH, handle_Forall.
Qed.

End entries.

(** X9. In every state of a session, every entry has the name and the
    size of its file and the path of its file, or the name when the file
    has no relative path; an entry that is [pending] has no table, no
    headers and no error message, an entry that is [done] has a table
    and headers, and an entry that is [error] has an error message. *)
Theorem entries_fit `{SheetJS} `{MathRandom} (es : list Event)
    (today : string) :
  Forall (λ f, from_file f ∧ fields_fit_status f)
         (files (run es (initial today))).
Proof.
  apply run_Forall; [| | | | by apply Forall_nil].
  - intros i f. split; [| done].
    unfold from_file, new_item, str_or. simpl. split_and!; done.
  - intros f [Hfile Hfit]. split; done.
  - intros f d hs [Hfile Hfit]. split; [done |].
    unfold fields_fit_status. simpl. split; by eexists.
  - intros f msg [Hfile Hfit]. split; [done |].
    unfold fields_fit_status. simpl. by eexists.
Qed.

(** ** Registry: what each event does to the list of entries *)

Lemma update_where_identity (i : string) (g : FileItem → FileItem)
    (prev : list FileItem) :
  (∀ f, identity_of (g f) = identity_of f) →
  identity_of <$> update_where i g prev = identity_of <$> prev.
Proof.
  intros Hg. unfold update_where. rewrite <- list_fmap_compose.
  apply list_fmap_ext. intros k f _. simpl.
  destruct (decide (id f = i)); [apply Hg | done].
Qed.

Lemma begin_next_identity (items : list FileItem) (s : App) :
  identity_of <$> files (begin_next items s) = identity_of <$> files s.
Proof.
  destruct items as [|item rest]; [done |]. simpl.
  by apply (update_where_identity (id item) with_processing).
Qed.

Lemma finish_identity (item : FileItem) (r : promise Decoded) (s : App) :
  identity_of <$> files (finish item r s) = identity_of <$> files s.
Proof.
  destruct r as [dec|err]; simpl.
  - by apply (update_where_identity (id item) (λ f, with_done f _ _)).
  - by apply (update_where_identity (id item) (λ f, with_error f _)).
Qed.

Lemma resume_identity `{SheetJS} (t : nat) (s : App) :
  identity_of <$> files (resume t s) = identity_of <$> files s.
Proof.
  unfold resume. destruct (tasks s !! t) as [T|]; [| done].
  destruct (queue T) as [|item rest]; [done |]. simpl.
  by rewrite begin_next_identity, finish_identity.
Qed.

Lemma no_upload_drops `{SheetJS} `{MathRandom} (e : Event) (s : App) :
  no_upload e →
  (identity_of <$> files (handle e s)) `sublist_of` (identity_of <$> files s).
Proof.
  intros Hno. destruct e as [selected | t | i | | o]; simpl.
  - done.
  - by rewrite resume_identity.
  - apply fmap_sublist, sublist_filter.
  - apply sublist_nil_l.
  - done.
Qed.

(** X10. Processing never adds, removes or reorders entries and never
    changes the identifier, file, name, path or size of one: a settled
    read and a change of options leave the list of these as it is, a
    selection of files only appends the new entries, of which there is
    none when no file of the batch is accepted, and every other event
    only drops entries. *)
Theorem events_on_entries `{SheetJS} `{MathRandom} (s : App) :
  (∀ t, identity_of <$> files (handle (ReadSettled t) s)
        = identity_of <$> files s) ∧
  (∀ o, files (handle (OptionsChanged o) s) = files s) ∧
  (∀ selected,
     identity_of <$> files (handle (FilesSelected selected) s)
     = (identity_of <$> files s)
         ++ (identity_of <$> newItems selected (draws s))) ∧
  (∀ selected, filter accepted selected = [] →
     files (handle (FilesSelected selected) s) = files s) ∧
  (∀ e, no_upload e →
     (identity_of <$> files (handle e s))
       `sublist_of` (identity_of <$> files s)).
Proof.
  split_and!.
  - intros t. apply resume_identity.
  - done.
  - intros selected. simpl. unfold handleFileUpload, processFiles. simpl.
    rewrite begin_next_identity. unfold register. simpl.
    by rewrite fmap_app.
  - intros selected Hnone. simpl.
    unfold handleFileUpload, processFiles, newItems.
    rewrite Hnone. simpl. by rewrite app_nil_r.
  - intros e. apply no_upload_drops.
Qed.

Lemma run_no_upload_ids `{SheetJS} `{MathRandom} (es : list Event)
    (s : App) :
  Forall no_upload es →
  (identity_of <$> files (run es s)) `sublist_of` (identity_of <$> files s).
Proof.
  revert s. induction es as [|e es IH]; intros s Hes; [done |].
  apply Forall_cons in Hes as [He Hes]. simpl.
  etrans; [by apply IH |]. by apply no_upload_drops.
Qed.

(** ** Removal *)

Lemma filter_all {A} (P : A → Prop) `{∀ x, Decision (P x)} (l : list A) :
  Forall P l → filter P l = l.
Proof.
  induction 1 as [|x l Hx Hl IH]; [done |].
  by rewrite filter_cons_True, IH.
Qed.

(** X11. [removeFile] drops exactly the entries with the given
    identifier and keeps the others in their order; it changes nothing
    when no entry has the identifier; and an entry that was removed does
    not come back, whatever events other than a selection of files
    follow, also when the read of its file settles afterwards. *)
Theorem removeFile_removes `{SheetJS} `{MathRandom} (i : string) (s : App) :
  (∀ f, f ∈ files (removeFile i s) ↔ f ∈ files s ∧ id f ≠ i) ∧
  files (removeFile i s) `sublist_of` files s ∧
  (i ∉ id <$> files s → files (removeFile i s) = files s) ∧
  (∀ es, Forall no_upload es →
         i ∉ id <$> files (run es (removeFile i s))).
Proof.
  split_and!.
  - intros f. simpl. rewrite list_elem_of_filter. tauto.
  - apply sublist_filter.
  - intros Hnot. simpl. apply filter_all, Forall_forall.
    intros f Hf E. apply Hnot. rewrite <- E. by apply list_elem_of_fmap_2.
  - intros es Hes Hin.
    apply list_elem_of_fmap in Hin as (f & Hid & Hf).
    assert (Hident : identity_of f
                       ∈ identity_of <$> files (run es (removeFile i s))).
    { by apply list_elem_of_fmap_2. }
    eapply elem_of_sublist in Hident; [| by apply run_no_upload_ids].
    apply list_elem_of_fmap in Hident as (f0 & Hsame & Hf0).
    simpl in Hf0. apply list_elem_of_filter in Hf0 as [Hne _].
    apply Hne. unfold identity_of in Hsame. congruence.
Qed.

(** A file is removed while it is being read; its read settles later. *)
Example removed_while_read :
  (λ f, (name f, status f))
    <$> files (@run BlankCodec CountingIds
                 [FilesSelected [xlsx_file "a.xlsx"; xlsx_file "b.xlsx"];
                  RemoveFile "0"; ReadSettled 0; ReadSettled 0]
                 (initial "2026-01-01"))
  = [("b.xlsx", done)].
Proof. by vm_compute. Qed.

(** ** Processing comes to an end *)

Lemma finish_cases (item : FileItem) (r : promise Decoded) (s : App) :
  ∃ g h, (∀ f, id (g f) = id f) ∧ (∀ f, terminal (g f)) ∧
         files (finish item r s) = update_where (id item) g (files s) ∧
         tasks (finish item r s) = tasks s ∧
         store (finish item r s) = h.
Proof.
  destruct r as [dec|err]; simpl.
  - exists (λ f, with_done f (seq (length (store s))
                                  (length (decoded_data dec)))
                          (decoded_headers dec)),
           (store s ++ decoded_data dec).
    split_and!; try done. intros f. by left.
  - exists (λ f, with_error f (message err)), (store s).
    split_and!; try done. intros f. by right.
Qed.

Lemma begin_next_origin (items : list FileItem) (s : App) (f' : FileItem) :
  f' ∈ files (begin_next items s) →
  f' ∈ files s ∨ ∃ next, head items = Some next ∧ id f' = id next.
Proof.
  destruct items as [|next rest]; [by left |]. simpl. intros Hin.
  destruct (elem_of_update_where (id next) with_processing (files s) f')
    as (f & Hf & Hid & Hsame & _); [done | done |].
  destruct (decide (id f = id next)) as [E|Hne].
  - right. exists next. split; [done | congruence].
  - left. by rewrite Hsame.
Qed.

Lemma begin_next_tasks (items : list FileItem) (s : App) :
  tasks (begin_next items s) = tasks s.
Proof. by destruct items. Qed.

Lemma held_step (files files' : list FileItem) (Q Q' : list string) :
  (∀ f, f ∈ files → ¬ terminal f → id f ∈ Q) →
  (∀ f', f' ∈ files' →
     terminal f' ∨ id f' ∈ Q' ∨ (f' ∈ files ∧ (id f' ∈ Q → id f' ∈ Q'))) →
  ∀ f', f' ∈ files' → ¬ terminal f' → id f' ∈ Q'.
Proof.
  intros Hheld Hstep f' Hf' Hnot.
  destruct (Hstep f' Hf') as [Hterm | [Hq | [Hold Hkeep]]]; [done | done |].
  by apply Hkeep, Hheld.
Qed.

Lemma head_elem {A} (l : list A) (x : A) : head l = Some x → x ∈ l.
Proof. destruct l; [done |]. intros [= ->]. apply elem_of_cons. by left. Qed.

Lemma handle_held `{SheetJS} `{MathRandom} (e : Event) (s : App) :
  unfinished_held s → unfinished_held (handle e s).
Proof.
  intros Hheld. destruct e as [selected | t | i | | o]; simpl.
  - unfold handleFileUpload, processFiles. unfold unfinished_held. simpl.
    rewrite begin_next_tasks. unfold register at 1. simpl.
    rewrite queued_snoc. simpl. rewrite fmap_app.
    eapply held_step; [exact Hheld |]. intros f' Hf'.
    apply begin_next_origin in Hf' as [Hf' | (next & Hhd & Hid)].
    + unfold register in Hf'. simpl in Hf'.
      apply elem_of_app in Hf' as [Hf'|Hf'].
      * right; right. split; [done |]. intros Hq. apply elem_of_app. by left.
      * right; left. apply elem_of_app. right. by apply list_elem_of_fmap_2.
    + right; left. apply elem_of_app. right. rewrite Hid.
      by apply list_elem_of_fmap_2, head_elem.
  - unfold resume. destruct (tasks s !! t) as [T|] eqn:HT; [| done].
    destruct (queue T) as [|item rest] eqn:HQ; [done |].
    destruct (list_elem_of_split_length _ _ _ HT)
      as (pre & post & Htasks & Hlen).
    destruct (finish_cases item (readExcelFile item (task_sheetIndex T)) s)
      as (g & h & Hgid & Hgterm & Hfiles & Htasks1 & _).
    unfold unfinished_held in *. simpl.
    assert (Htasks2 : tasks (begin_next rest
              (finish item (readExcelFile item (task_sheetIndex T)) s))
            = tasks s).
    { destruct rest; simpl; by rewrite Htasks1. }
    rewrite Htasks2, Htasks, Hlen, insert_app_r_alt, Nat.sub_diag by lia.
    simpl. rewrite queued_middle. simpl.
    rewrite Htasks, queued_middle, HQ in Hheld.
    eapply held_step; [exact Hheld |]. intros f' Hf'.
    apply begin_next_origin in Hf' as [Hf' | (next & Hhd & Hid)].
    + rewrite Hfiles in Hf'.
      destruct (elem_of_update_where (id item) g (files s) f' Hgid Hf')
        as (f & Hf & Hidf & Hsame & Hchanged).
      destruct (decide (id f = id item)) as [E|Hne].
      * left. rewrite Hchanged by done. apply Hgterm.
      * right; right. rewrite Hsame by done. split; [done |].
        rewrite !fmap_app, fmap_cons. intros Hq.
        apply elem_of_app in Hq as [Hq|Hq]; [apply elem_of_app; by left |].
        apply elem_of_app in Hq as [Hq|Hq];
          [| apply elem_of_app; right; apply elem_of_app; by right].
        apply elem_of_cons in Hq as [Hq|Hq]; [done |].
        apply elem_of_app; right. apply elem_of_app. by left.
    + right; left. rewrite Hid, !fmap_app, !elem_of_app. right; left.
      by apply list_elem_of_fmap_2, head_elem.
  - unfold unfinished_held. simpl. intros f Hf.
    apply list_elem_of_filter in Hf as [_ Hf]. by apply Hheld.
  - unfold unfinished_held. simpl. intros f Hf. by apply elem_of_nil in Hf.
  - done.
Qed.

Lemma run_held `{SheetJS} `{MathRandom} (es : list Event) (s : App) :
  unfinished_held s → unfinished_held (run es s).
Proof.
  revert s. induction es as [|e es IH]; intros s Hheld; [done |].
  simpl. by apply IH, handle_held.
Qed.

Lemma resume_shortens `{SheetJS} (t : nat) (T : Task) (s : App) :
  tasks s !! t = Some T → queue T ≠ [] →
  S (length (queued (tasks (resume t s)))) = length (queued (tasks s)).
Proof.
  intros HT Hne. unfold resume. rewrite HT.
  destruct (queue T) as [|item rest] eqn:HQ; [done |].
  destruct (list_elem_of_split_length _ _ _ HT) as (pre & post & Htasks & Hlen).
  destruct (finish_cases item (readExcelFile item (task_sheetIndex T)) s)
    as (g & h & _ & _ & _ & Htasks1 & _).
  simpl.
  assert (Htasks2 : tasks (begin_next rest
            (finish item (readExcelFile item (task_sheetIndex T)) s))
          = tasks s).
  { destruct rest; simpl; by rewrite Htasks1. }
  rewrite Htasks2, Htasks, Hlen, insert_app_r_alt, Nat.sub_diag by lia.
  simpl. rewrite !queued_middle, HQ. simpl.
  rewrite !length_app. simpl. rewrite !length_app. lia.
Qed.

Lemma settles_exist `{SheetJS} `{MathRandom} (n : nat) (s : App) :
  length (queued (tasks s)) = n →
  ∃ settles, Forall is_settle settles ∧ length settles = n ∧
             queued (tasks (run settles s)) = [].
Proof.
  revert s. induction n as [|n IH]; intros s Hlen.
  - exists []. split_and!; [done | done |]. by apply nil_length_inv.
  - destruct (queued (tasks s)) as [|q qs] eqn:Hq; [done |].
    assert (Hin : q ∈ queued (tasks s)).
    { rewrite Hq. apply elem_of_cons. by left. }
    apply list_elem_of_bind in Hin as (T & HqT & HT).
    apply list_elem_of_lookup in HT as [t HT].
    assert (Hne : queue T ≠ []).
    { intros E. rewrite E in HqT. by apply elem_of_nil in HqT. }
    pose proof (resume_shortens t T s HT Hne) as Hshort.
    rewrite Hq in Hshort. simpl in Hshort, Hlen.
    destruct (IH (resume t s)) as (settles & Hall & Hn & Hend); [lia |].
    exists (ReadSettled t :: settles). split_and!.
    + by apply Forall_cons.
    + simpl. by rewrite Hn.
    + done.
Qed.

(** X12. In every state of a session, an entry that is [pending] or
    [processing] is held by a running loop; so when no loop holds an
    item any more every entry is [done] or [error], and from every state
    the reads that are still awaited, one per held item, can settle, in
    some order, and bring the session there. *)
Theorem processing_ends `{SheetJS} `{MathRandom} (es : list Event)
    (today : string) :
  unfinished_held (run es (initial today)) ∧
  (queued (tasks (run es (initial today))) = [] →
     Forall terminal (files (run es (initial today)))) ∧
  (∃ settles,
     Forall is_settle settles ∧
     length settles = length (queued (tasks (run es (initial today)))) ∧
     queued (tasks (run (es ++ settles) (initial today))) = [] ∧
     Forall terminal (files (run (es ++ settles) (initial today)))).
Proof.
  assert (Hinit : unfinished_held (initial today)).
  { intros f Hf. by apply elem_of_nil in Hf. }
  assert (Hterm : ∀ s, unfinished_held s → queued (tasks s) = [] →
                       Forall terminal (files s)).
  { intros s Hheld Hnone. apply Forall_forall. intros f Hf.
    destruct (decide (status f = done)) as [|Hd]; [by left |].
    destruct (decide (status f = error)) as [|He]; [by right |].
    exfalso. assert (Hin : id f ∈ id <$> queued (tasks s)).
    { apply Hheld; [done |]. by intros [?|?]. }
    rewrite Hnone in Hin. by apply elem_of_nil in Hin. }
  split_and!.
  - by apply run_held.
  - apply Hterm. by apply run_held.
  - destruct (settles_exist _ (run es (initial today)) eq_refl)
      as (settles & Hall & Hn & Hend).
    exists settles. unfold run in *. rewrite foldl_app.
    split_and!; [done | done | done |].
    apply Hterm; [| done]. apply (run_held settles), (run_held es), Hinit.
Qed.

(** ** What a batch becomes *)

Lemma update_where_none (i : string) (g : FileItem → FileItem)
    (l : list FileItem) :
  i ∉ id <$> l → update_where i g l = l.
Proof.
  intros Hnot. unfold update_where.
  rewrite <- (list_fmap_id l) at 2. apply list_fmap_ext. intros k f Hf.
  simpl. rewrite decide_False; [done |]. intros E. apply Hnot.
  rewrite <- E. by eapply list_elem_of_fmap_2, list_elem_of_lookup_2.
Qed.

Lemma update_where_only (i : string) (g : FileItem → FileItem)
    (A B : list FileItem) (x : FileItem) :
  i ∉ id <$> A → i ∉ id <$> B → id x = i →
  update_where i g (A ++ x :: B) = A ++ g x :: B.
Proof.
  intros HA HB Hx.
  rewrite <- (update_where_none i g A HA) at 2.
  rewrite <- (update_where_none i g B HB) at 2.
  unfold update_where. rewrite fmap_app, fmap_cons.
  by rewrite decide_True.
Qed.

Lemma outcome_of_identity `{SheetJS} (i : Z) (h : heap) (item : FileItem) :
  identity_of (outcome_of i h item).1 = identity_of item.
Proof. unfold outcome_of. by destruct (readExcelFile item i). Qed.

Lemma finish_outcome `{SheetJS} (item : FileItem) (i : Z) (s : App)
    (A B : list FileItem) :
  files s = A ++ with_processing item :: B →
  id item ∉ id <$> A → id item ∉ id <$> B →
  files (finish item (readExcelFile item i) s)
    = A ++ (outcome_of i (store s) item).1 :: B ∧
  store (finish item (readExcelFile item i) s)
    = (outcome_of i (store s) item).2 ∧
  tasks (finish item (readExcelFile item i) s) = tasks s ∧
  options (finish item (readExcelFile item i) s) = options s ∧
  draws (finish item (readExcelFile item i) s) = draws s.
Proof.
  intros Hfiles HA HB. unfold outcome_of.
  destruct (readExcelFile item i) as [dec|err]; simpl; rewrite Hfiles.
  - change (mark_done (id item) ?d ?hs)
      with (update_where (id item) (λ f, with_done f d hs)).
    by rewrite update_where_only.
  - change (mark_error (id item) ?msg)
      with (update_where (id item) (λ f, with_error f msg)).
    by rewrite update_where_only.
Qed.

Lemma begin_next_only (rest A : list FileItem) (s : App) :
  files s = A ++ rest →
  NoDup (id <$> rest) → (∀ x, x ∈ id <$> rest → x ∉ id <$> A) →
  files (begin_next rest s) = A ++ in_progress rest ∧
  store (begin_next rest s) = store s ∧
  tasks (begin_next rest s) = tasks s ∧
  options (begin_next rest s) = options s ∧
  draws (begin_next rest s) = draws s.
Proof.
  intros Hfiles Hnd Hdisj. destruct rest as [|next rest]; [done |].
  simpl. rewrite Hfiles.
  change (mark_processing (id next))
    with (update_where (id next) with_processing).
  rewrite fmap_cons in Hnd. apply NoDup_cons in Hnd as [Hnot _].
  rewrite update_where_only; [done | | done | done].
  apply Hdisj. rewrite fmap_cons. apply elem_of_cons. by left.
Qed.

Lemma loop_runs `{SheetJS} `{MathRandom} (q : list FileItem) :
  ∀ (A : list FileItem) (s : App) (t : nat) (i : Z),
  tasks s !! t = Some {| queue := q; task_sheetIndex := i |} →
  files s = A ++ in_progress q →
  NoDup (id <$> q) → (∀ x, x ∈ id <$> q → x ∉ id <$> A) →
  files (run (replicate (length q) (ReadSettled t)) s)
    = A ++ (outcomes i (store s) q).1 ∧
  store (run (replicate (length q) (ReadSettled t)) s)
    = (outcomes i (store s) q).2.
Proof.
  induction q as [|item rest IH]; intros A s t i HT Hfiles Hnd Hdisj.
  - simpl in *. by rewrite Hfiles.
  - simpl replicate. simpl run. fold (run (replicate (length rest) (ReadSettled t))).
    rewrite fmap_cons in Hnd. pose proof Hnd as Hnd0.
    apply NoDup_cons in Hnd as [Hnot Hnd].
    assert (HA : id item ∉ id <$> A).
    { apply Hdisj. rewrite fmap_cons. apply elem_of_cons. by left. }
    destruct (finish_outcome item i s A rest Hfiles HA Hnot)
      as (Hf1 & Hs1 & Ht1 & Ho1 & Hd1).
    assert (Hid : id (outcome_of i (store s) item).1 = id item).
    { pose proof (outcome_of_identity i (store s) item) as E.
      unfold identity_of in E. congruence. }
    destruct (begin_next_only rest (A ++ [(outcome_of i (store s) item).1])
                (finish item (readExcelFile item i) s))
      as (Hf2 & Hs2 & Ht2 & Ho2 & Hd2).
    { by rewrite Hf1, <- app_assoc. }
    { done. }
    { intros x Hx. rewrite fmap_app, elem_of_app. intros [Hin|Hin].
      - apply (Hdisj x); [| done]. rewrite fmap_cons. apply elem_of_cons.
        by right.
      - simpl in Hin. apply list_elem_of_singleton in Hin.
        apply Hnot. congruence. }
    assert (Hres : resume t s
              = set_tasks
                  (<[t := {| queue := rest; task_sheetIndex := i |}]>
                     (tasks (begin_next rest
                               (finish item (readExcelFile item i) s))))
                  (begin_next rest (finish item (readExcelFile item i) s))).
    { unfold resume. by rewrite HT. }
    rewrite Hres.
    destruct (IH (A ++ [(outcome_of i (store s) item).1])
                 (set_tasks
                    (<[t := {| queue := rest; task_sheetIndex := i |}]>
                       (tasks (begin_next rest
                                 (finish item (readExcelFile item i) s))))
                    (begin_next rest (finish item (readExcelFile item i) s)))
                 t i) as [Hfinal Hstore].
    { simpl. rewrite Ht2, Ht1. apply list_lookup_insert_eq.
      by eapply lookup_lt_Some. }
    { done. }
    { done. }
    { intros x Hx. rewrite fmap_app, elem_of_app. intros [Hin|Hin].
      - apply (Hdisj x); [| done]. rewrite fmap_cons. apply elem_of_cons.
        by right.
      - simpl in Hin. apply list_elem_of_singleton in Hin.
        apply Hnot. congruence. }
    simpl store in Hfinal, Hstore. rewrite Hs2, Hs1 in Hfinal, Hstore.
    rewrite Hfinal, Hstore. simpl outcomes.
    destruct (outcome_of i (store s) item) as [f h1]. simpl.
    destruct (outcomes i h1 rest) as [fs h2]. simpl.
    by rewrite <- app_assoc.
Qed.

Lemma deref_fresh_app (h rows more : heap) :
  deref ((h ++ rows) ++ more) <$> seq (length h) (length rows) = rows.
Proof.
  transitivity (deref (h ++ rows) <$> seq (length h) (length rows));
    [| apply deref_fresh].
  apply Forall_fmap_ext_1, Forall_forall. intros l Hl.
  apply elem_of_seq in Hl. apply deref_app_l. rewrite length_app. lia.
Qed.

Lemma outcome_of_settled `{SheetJS} (i : Z) (h more : heap)
    (item : FileItem) :
  h `prefix_of` (outcome_of i h item).2 ∧
  settled_as i ((outcome_of i h item).2 ++ more) item (outcome_of i h item).1.
Proof.
  unfold outcome_of, settled_as.
  destruct (readExcelFile item i) as [dec|err]; simpl.
  - split; [by apply prefix_app_r |]. split_and!; try done.
    apply deref_fresh_app.
  - split; [done |]. split_and!; done.
Qed.

Lemma outcomes_settled `{SheetJS} (i : Z) (items : list FileItem) (h : heap) :
  h `prefix_of` (outcomes i h items).2 ∧
  Forall2 (settled_as i (outcomes i h items).2) items (outcomes i h items).1.
Proof.
  revert h. induction items as [|item rest IH]; intros h.
  - split; [done | by constructor].
  - simpl.
    pose proof (λ more, outcome_of_settled i h more item) as Hhead.
    destruct (outcome_of i h item) as [f h1]. simpl in Hhead.
    destruct (IH h1) as [[more Hmore] Hrest].
    destruct (outcomes i h1 rest) as [fs h2]. simpl in *.
    destruct (Hhead more) as [Hpre Hf]. split.
    + etrans; [exact Hpre |]. by exists more.
    + constructor; [by rewrite Hmore | done].
Qed.

(** X13. In a session whose identifiers never repeat, when a batch is
    selected and one read settles for each accepted file, the registry
    is the earlier registry, unchanged, followed by one entry for each
    accepted file, in order, and each of them is what the read of its
    own file makes of it: [done] with the decoded headers and rows, or
    [error] with the message of its failure. A file that fails neither
    stops the batch nor touches another entry. *)
Theorem batch_outcome `{SheetJS} `{MathRandom} (es : list Event)
    (today : string) (selected : list File) (s : App) :
  (∀ j k, random_id j = random_id k → j = k) →
  s = run es (initial today) →
  ∃ settled,
    files (run (es ++ FilesSelected selected
                   :: replicate (length (filter accepted selected))
                                (ReadSettled (length (tasks s))))
               (initial today))
      = files s ++ settled ∧
    Forall2 (settled_as (sheetIndex (options s))
               (store (run (es ++ FilesSelected selected
                              :: replicate (length (filter accepted selected))
                                           (ReadSettled (length (tasks s))))
                          (initial today))))
            (newItems selected (draws s)) settled.
Proof.
  intros Hinj Hs.
  assert (Hinv : lifecycle_inv s).
  { rewrite Hs. apply run_inv; [done |]. apply initial_inv. }
  destruct Hinv as [[_ _ Hdrawn] _].
  set (items := newItems selected (draws s)).
  exists (outcomes (sheetIndex (options s)) (store s) items).1.
  unfold run. rewrite foldl_app. simpl. fold (run es (initial today)).
  rewrite <- Hs.
  fold (run (replicate (length (filter accepted selected))
                       (ReadSettled (length (tasks s))))
            (handleFileUpload selected s)).
  destruct (begin_next_only items (files s) (register items s))
    as (Hf & Hst & Ht & Ho & Hd).
  { done. }
  { by apply newItems_nodup. }
  { intros x Hx Hin.
    apply list_elem_of_fmap in Hx as (it & -> & Hit).
    apply list_elem_of_fmap in Hin as (f & Hid & Hfin).
    eapply (newItems_fresh Hinj selected (draws s) it (id it));
      [done | | done].
    rewrite Hid. by eapply (proj1 (Forall_forall _ _) Hdrawn). }
  destruct (loop_runs items (files s) (handleFileUpload selected s)
              (length (tasks s)) (sheetIndex (options s)))
    as [Hfinal Hstore].
  { unfold handleFileUpload, processFiles. fold items. simpl.
    rewrite Ht. simpl. rewrite lookup_app_r by done.
    by rewrite Nat.sub_diag. }
  { unfold handleFileUpload, processFiles. fold items. simpl. done. }
  { by apply newItems_nodup. }
  { intros x Hx Hin.
    apply list_elem_of_fmap in Hx as (it & -> & Hit).
    apply list_elem_of_fmap in Hin as (f & Hid & Hfin).
    eapply (newItems_fresh Hinj selected (draws s) it (id it));
      [done | | done].
    rewrite Hid. by eapply (proj1 (Forall_forall _ _) Hdrawn). }
  assert (Hstore0 : store (handleFileUpload selected s) = store s).
  { unfold handleFileUpload, processFiles. fold items. simpl. by rewrite Hst. }
  rewrite Hstore0 in Hfinal, Hstore.
  unfold items in Hfinal at 1. unfold items in Hstore at 1.
  rewrite newItems_length in Hfinal, Hstore.
  split; [exact Hfinal |]. rewrite Hstore. apply outcomes_settled.
Qed.

Lemma batch_outcome_witness :
  ∃ settled,
    files (@run BlankCodec CountingIds
             ([] ++ FilesSelected [xlsx_file "a.xlsx"; xlsx_file "b.txt"]
                 :: replicate (length (filter accepted
                                         [xlsx_file "a.xlsx"; xlsx_file "b.txt"]))
                              (ReadSettled (length (tasks (initial "2026-01-01")))))
             (initial "2026-01-01"))
      = files (initial "2026-01-01") ++ settled ∧
    Forall2 (@settled_as BlankCodec
               (sheetIndex (options (initial "2026-01-01")))
               (store (@run BlankCodec CountingIds
                         ([] ++ FilesSelected [xlsx_file "a.xlsx"; xlsx_file "b.txt"]
                             :: replicate (length (filter accepted
                                            [xlsx_file "a.xlsx"; xlsx_file "b.txt"]))
                                          (ReadSettled (length (tasks (initial "2026-01-01")))))
                         (initial "2026-01-01"))))
            (@newItems CountingIds [xlsx_file "a.xlsx"; xlsx_file "b.txt"]
                       (draws (initial "2026-01-01")))
            settled.
Proof.
  exact (@batch_outcome BlankCodec CountingIds [] "2026-01-01"
           [xlsx_file "a.xlsx"; xlsx_file "b.txt"] (initial "2026-01-01")
           counting_ids_never_repeat eq_refl).
Defined.

(** A file that cannot be read, before and after one that can. *)
Example failure_is_isolated :
  (λ f, (name f, status f, errorMessage f))
    <$> files (@run BlankCodec CountingIds
                 [FilesSelected [unreadable_file "a.xlsx"; xlsx_file "b.xlsx";
                                 unreadable_file "c.csv"];
                  ReadSettled 0; ReadSettled 0; ReadSettled 0]
                 (initial "2026-01-01"))
  = [("a.xlsx", error, Some "File reading failed.");
     ("b.xlsx", done, None);
     ("c.csv", error, Some "File reading failed.")].
Proof. by vm_compute. Qed.

Lemma filteredFiles_keyword_sublist `{JsString} (files : list FileItem)
    (options : MergeOptions) :
  filteredFiles files options `sublist_of` files.
Proof.
  unfold filteredFiles. case_decide; [done | apply sublist_filter].
Qed.

(** ** The merge request in a session *)

Lemma finish_refs (item : FileItem) (r : promise Decoded) (s : App) :
  refs_in_store (store s) (files s) →
  refs_in_store (store (finish item r s)) (files (finish item r s)).
Proof.
  intros Hrefs. destruct r as [dec|err]; simpl.
  - change (mark_done (id item) ?d ?hs)
      with (update_where (id item) (λ f, with_done f d hs)).
    apply refs_in_store_app with (h2 := decoded_data dec) in Hrefs.
    unfold refs_in_store, update_where in *. apply Forall_fmap.
    eapply Forall_impl; [exact Hrefs |]. intros f Hf. simpl.
    destruct (decide (id f = id item)); [| done].
    unfold rows_of. simpl. apply Forall_forall. intros l Hl.
    apply elem_of_seq in Hl. rewrite length_app. lia.
  - change (mark_error (id item) ?msg)
      with (update_where (id item) (λ f, with_error f msg)).
    by apply (update_where_Forall
                (λ f, Forall (λ l, l < length (store s)) (rows_of f))).
Qed.

Lemma begin_next_refs (items : list FileItem) (s : App) :
  refs_in_store (store s) (files s) →
  refs_in_store (store (begin_next items s)) (files (begin_next items s)).
Proof.
  intros Hrefs. destruct items as [|item rest]; [done |]. simpl.
  by apply (update_where_Forall
              (λ f, Forall (λ l, l < length (store s)) (rows_of f))).
Qed.

Lemma handle_refs `{SheetJS} `{MathRandom} (e : Event) (s : App) :
  refs_in_store (store s) (files s) →
  refs_in_store (store (handle e s)) (files (handle e s)).
Proof.
  intros Hrefs. destruct e as [selected | t | i | | o]; simpl.
  - unfold handleFileUpload, processFiles. simpl.
    apply begin_next_refs. unfold register. simpl.
    apply Forall_app. split; [done |].
    apply Forall_forall. intros it Hit.
    destruct (newItems_elem selected (draws s) it Hit) as (k & f & -> & _).
    by apply Forall_nil.
  - unfold resume. destruct (tasks s !! t) as [T|]; [| done].
    destruct (queue T) as [|item rest]; [done |]. simpl.
    by apply begin_next_refs, finish_refs.
  - unfold refs_in_store in *. apply Forall_forall. intros f Hf.
    apply list_elem_of_filter in Hf as [_ Hf].
    by eapply (proj1 (Forall_forall _ _) Hrefs).
  - by apply Forall_nil.
  - done.
Qed.

Lemma run_refs `{SheetJS} `{MathRandom} (es : list Event) (s : App) :
  refs_in_store (store s) (files s) →
  refs_in_store (store (run es s)) (files (run es s)).
Proof.
  revert s. induction es as [|e es IH]; intros s Hrefs; [done |].
  simpl. by apply IH, handle_refs.
Qed.

(** X14. In every state of a session the merge request does one of
    three things, decided by the entries that match the keyword and are
    [done]: without such an entry it reports that there is nothing to
    merge and leaves the store; when these entries hold no row it
    reports the failure of the merge; otherwise it downloads, under the
    name built from the output name, the workbook of exactly the rows of
    these entries, in order, each with its source column when that
    option is set. Entries that are [pending], [processing] or [error]
    have no part in it. *)
Theorem merge_in_session `{JsString} `{SheetJS} `{MathRandom}
    (es : list Event) (today : string) (s : App)
    (ready : list FileItem) (rows : list row) :
  s = run es (initial today) →
  ready = filter (λ f, status f = done)
                 (filteredFiles (files s) (options s)) →
  rows = ready ≫= (λ f, (λ l, emitted_row (options s) f (deref (store s) l))
                          <$> rows_of f) →
  (ready = [] →
     handleMergeAllMatched s
       = (store s, Alert "没有可合并的文件。请确保文件解析成功。")) ∧
  (ready ≠ [] → rows = [] →
     handleMergeAllMatched s
       = (store s, Alert "合并失败: No data to merge.")) ∧
  (rows ≠ [] →
     handleMergeAllMatched s
       = (store s ++ rows,
          Download
            (downloadBlob_name (str_or (outputFileName (options s))
                                       "merged_result"))
            (merged_workbook rows))).
Proof.
  intros Hs Hready Hrows.
  assert (Hsub : ∀ f, f ∈ ready → f ∈ files s ∧ status f = done).
  { intros f Hf. rewrite Hready in Hf.
    apply list_elem_of_filter in Hf as [Hdone Hf]. split; [| done].
    eapply elem_of_sublist; [exact Hf |].
    by apply filteredFiles_keyword_sublist. }
  assert (Hdata : Forall (λ f, status f = done → is_Some (data f)) (files s)).
  { rewrite Hs. apply run_Forall.
    - intros i f. simpl. done.
    - intros f _. simpl. done.
    - intros f d hs _ _. simpl. by eexists.
    - intros f msg _. simpl. done.
    - by apply Forall_nil. }
  assert (Hrefs : refs_in_store (store s) ready).
  { assert (Hall : refs_in_store (store s) (files s)).
    { rewrite Hs. apply run_refs. by apply Forall_nil. }
    apply Forall_forall. intros f Hf.
    by eapply (proj1 (Forall_forall _ _) Hall), Hsub. }
  assert (Hpart : participants ready = ready).
  { unfold participants. apply filter_all, Forall_forall. intros f Hf.
    destruct (Hsub f Hf) as [Hin Hdone]. split; [done |].
    by eapply (proj1 (Forall_forall _ _) Hdata). }
  assert (Hemit : emitted_rows (options s) (store s) ready = rows).
  { unfold emitted_rows. by rewrite Hpart, Hrows. }
  unfold handleMergeAllMatched. rewrite <- Hready.
  split_and!.
  - intros ->. done.
  - intros Hne Hnil.
    rewrite decide_False by (by destruct ready).
    rewrite mergeFiles_run by done. rewrite Hemit, Hnil.
    by rewrite app_nil_r.
  - intros Hne.
    assert (Hr : ready ≠ []).
    { intros E. rewrite E in Hrows. by rewrite Hrows in Hne. }
    rewrite decide_False by (by destruct ready).
    rewrite mergeFiles_run by done. rewrite Hemit.
    by destruct rows.
Qed.

Lemma merge_in_session_witness :
  @handleMergeAllMatched AsciiStrings BlankCodec
    (@run BlankCodec CountingIds
       [FilesSelected [xlsx_file "a.csv"]; ReadSettled 0]
       (initial "2026-01-01"))
  = (store (@run BlankCodec CountingIds
              [FilesSelected [xlsx_file "a.csv"]; ReadSettled 0]
              (initial "2026-01-01")),
     Alert "合并失败: No data to merge.").
Proof.
  exact (proj1 (proj2 (@merge_in_session AsciiStrings BlankCodec CountingIds
                         [FilesSelected [xlsx_file "a.csv"]; ReadSettled 0]
                         "2026-01-01" _ _ _ eq_refl eq_refl eq_refl))
           ltac:(by vm_compute) ltac:(by vm_compute)).
Defined.

(** ** One read at a time *)

(** X15. In a session whose identifiers never repeat, the reads of a
    batch are made one at a time: an entry that is [processing] is the
    first item that a running loop holds, and while a loop holds a first
    item every entry for its other items is [pending]. *)
Theorem one_read_per_loop `{SheetJS} `{MathRandom} (es : list Event)
    (today : string) (s : App) :
  (∀ j k, random_id j = random_id k → j = k) →
  s = run es (initial today) →
  (∀ f, f ∈ files s → status f = processing →
     ∃ t T item rest,
       tasks s !! t = Some T ∧ queue T = item :: rest ∧ id item = id f) ∧
  (∀ t T item rest r f,
     tasks s !! t = Some T → queue T = item :: rest →
     r ∈ rest → f ∈ files s → id f = id r → status f = pending).
Proof.
  intros Hinj Hs.
  assert (Hinv : lifecycle_inv s).
  { rewrite Hs. apply run_inv; [done |]. apply initial_inv. }
  assert (Hheld : unfinished_held s).
  { rewrite Hs. apply run_held. intros f Hf. by apply elem_of_nil in Hf. }
  destruct Hinv as [_ [_ _ Hmarked]]. split.
  - intros f Hf Hproc.
    assert (Hin : id f ∈ id <$> queued (tasks s)).
    { apply Hheld; [done |]. intros [E|E]; congruence. }
    apply list_elem_of_fmap in Hin as (q & Hid & Hq).
    apply list_elem_of_bind in Hq as (T & HqT & HT).
    pose proof (proj1 (Forall_forall _ _) Hmarked T HT) as Hok.
    apply list_elem_of_lookup in HT as [t HT].
    unfold task_ok in Hok.
    destruct (queue T) as [|item rest] eqn:HQ; [by apply elem_of_nil in HqT |].
    destruct Hok as [_ Hrest].
    apply elem_of_cons in HqT as [->|HqT].
    + by exists t, T, item, rest.
    + exfalso.
      pose proof (proj1 (Forall_forall _ _) Hrest q HqT f Hf Hid) as Hp.
      congruence.
  - intros t T item rest r f HT HQ Hr Hf Hid.
    pose proof (Forall_lookup_1 _ _ _ _ Hmarked HT) as Hok.
    unfold task_ok in Hok. rewrite HQ in Hok. destruct Hok as [_ Hrest].
    by eapply (proj1 (Forall_forall _ _) Hrest r Hr f).
Qed.

Lemma one_read_per_loop_witness :
  ∃ t T item rest,
    tasks (@run BlankCodec CountingIds
             [FilesSelected [xlsx_file "a.xlsx"; xlsx_file "b.xlsx"]]
             (initial "2026-01-01")) !! t = Some T ∧
    queue T = item :: rest ∧
    id item = id (with_processing (new_item "0" (xlsx_file "a.xlsx"))).
Proof.
  apply (proj1 (@one_read_per_loop BlankCodec CountingIds
                  [FilesSelected [xlsx_file "a.xlsx"; xlsx_file "b.xlsx"]]
                  "2026-01-01" _ counting_ids_never_repeat eq_refl)).
  - vm_compute. apply elem_of_cons. by left.
  - done.
Defined.

(** ** The prompt *)

Lemma includes_trans (a b c : string) :
  includes a b = true → includes b c = true → includes a c = true.
Proof.
  rewrite !includes_spec.
  intros (pre & post & ->) (pre' & post' & ->).
  exists (pre +:+ pre'), (post' +:+ post).
  by rewrite !string_app_assoc.
Qed.

Lemma includes_join (sep n : string) (arr : list string) :
  n ∈ arr → includes (join sep arr) n = true.
Proof. intros Hin. apply includes_spec. by apply join_names. Qed.

Lemma includes_suffix (a b : string) : includes (a +:+ b) b = true.
Proof.
  apply includes_spec. exists a, "". by rewrite string_app_empty_r.
Qed.

(** X16. The prompt sent to the remote model has a line for each file,
    numbered from 1 in the order of the files, that lists the headers of
    the file; so every header of every file occurs in the prompt. *)
Theorem prompt_lists_headers (fileHeaders : list (list string))
    (k : nat) (h : list string) :
  fileHeaders !! k = Some h →
  includes (prompt_of fileHeaders)
           ("File " +:+ pretty (k + 1) +:+ ": " +:+ join ", " h) = true ∧
  (∀ x, x ∈ h → includes (prompt_of fileHeaders) x = true).
Proof.
  intros Hk.
  assert (Hline : includes (prompt_of fileHeaders)
            ("File " +:+ pretty (k + 1) +:+ ": " +:+ join ", " h) = true).
  { unfold prompt_of.
    eapply includes_trans.
    - apply includes_join.
      do 6 (apply elem_of_cons; right). apply elem_of_cons. by left.
    - eapply includes_trans; [apply includes_suffix |].
      apply includes_join. apply elem_of_lookup_imap. by exists k, h. }
  split; [done |]. intros x Hx.
  eapply includes_trans; [exact Hline |].
  eapply includes_trans; [apply includes_suffix |].
  eapply includes_trans; [apply includes_suffix |].
  eapply includes_trans; [apply includes_suffix |].
  by apply includes_join.
Qed.

Lemma prompt_lists_headers_witness :
  includes (prompt_of [["User ID"; "Name"]; ["Member ID"; "Name"]])
           "File 2: Member ID, Name" = true.
Proof.
  exact (proj1 (prompt_lists_headers
                  [["User ID"; "Name"]; ["Member ID"; "Name"]] 1
                  ["Member ID"; "Name"] eq_refl)).
Defined.
